(** * svg-to-excalidraw: the traversal-and-geometry core

    A shallow embedding of [src/elements/path/utils/bezier.ts] and
    [src/walker.ts], and the properties of the specification that are
    settled on it.

    Numbers.  A JavaScript [number] is an IEEE 754 double.  The curve
    sampler of [bezier.ts] and the position normalizer of [walker.ts] are
    embedded on doubles, the primitive floats of the prover, with the
    rounding of every operation ([Double], [Bezier], [WalkerDouble]); the
    exponentiation [**], whose rounding the language leaves to the engine,
    is a parameter of the sampler.  The
    walkers reach numbers only through imported helpers; they, and the
    normalizer as they call it, are also given on an idealised arithmetic,
    an exact rational extended with the three non-finite values, in which
    rounding, overflow and the sign of zero are not represented
    ([JsNumber], [Walker]). *)

From Stdlib Require Import List String Ascii ZArith QArith Qcanon Lia Bool Arith.
From Stdlib Require Floats Uint63.
Import ListNotations.

Set Warnings "-register-all".

(** ** Thrown values and results *)

Inductive exn : Type :=
| Error (message : string)   (* [throw new Error(message)] *)
| TypeError.                 (* reading a property of [undefined] *)

Inductive result (A : Type) : Type :=
| Ok (a : A)
| Throw (e : exn).

Arguments Ok {A} a.
Arguments Throw {A} e.

Definition bind {A B} (r : result A) (k : A -> result B) : result B :=
  match r with
  | Ok a => k a
  | Throw e => Throw e
  end.

Notation "x <- r ;; k" := (bind r (fun x => k))
  (at level 61, r at next level, right associativity).

(** [Array.from({ length }, f)] and [xs.map(f)] with a callback that may
    throw: elements are produced left to right, the first throw wins. *)
Fixpoint mapM {A B} (f : A -> result B) (xs : list A) : result (list B) :=
  match xs with
  | [] => Ok []
  | x :: xs' => y <- f x ;; ys <- mapM f xs' ;; Ok (y :: ys)
  end.

(** ** Numbers, idealised *)

Module JsNumber.

Inductive number : Type :=
| Fin (q : Qc)
| PosInfinity
| NegInfinity
| NaN.

Definition ofZ (z : Z) : number := Fin (Q2Qc (inject_Z z)).
Definition ofNat (n : nat) : number := ofZ (Z.of_nat n).

Definition isFinite (x : number) : bool :=
  match x with Fin _ => true | _ => false end.

(** Sign of a number, [None] for [NaN]. *)
Definition sign (x : number) : option comparison :=
  match x with
  | Fin q => Some (q ?= 0)%Qc
  | PosInfinity => Some Gt
  | NegInfinity => Some Lt
  | NaN => None
  end.

Definition signMul (a b : comparison) : comparison :=
  match a, b with
  | Eq, _ | _, Eq => Eq
  | Lt, Lt | Gt, Gt => Gt
  | _, _ => Lt
  end.

(** The infinity of a given sign; a zero sign is the invalid case
    ([0 * Infinity], [0 / 0]). *)
Definition infinity (s : comparison) : number :=
  match s with Gt => PosInfinity | Lt => NegInfinity | Eq => NaN end.

Definition neg (x : number) : number :=
  match x with
  | Fin q => Fin (- q)
  | PosInfinity => NegInfinity
  | NegInfinity => PosInfinity
  | NaN => NaN
  end.

Definition add (x y : number) : number :=
  match x, y with
  | Fin a, Fin b => Fin (a + b)
  | NaN, _ | _, NaN => NaN
  | PosInfinity, NegInfinity | NegInfinity, PosInfinity => NaN
  | PosInfinity, _ | _, PosInfinity => PosInfinity
  | NegInfinity, _ | _, NegInfinity => NegInfinity
  end.

Definition sub (x y : number) : number := add x (neg y).

Definition mul (x y : number) : number :=
  match x, y with
  | Fin a, Fin b => Fin (a * b)
  | _, _ =>
      match sign x, sign y with
      | Some sx, Some sy => infinity (signMul sx sy)
      | _, _ => NaN
      end
  end.

Definition div (x y : number) : number :=
  match x, y with
  | NaN, _ | _, NaN => NaN
  | Fin a, Fin b =>
      if Qc_eq_dec b 0 then infinity (a ?= 0)%Qc else Fin (a / b)
  | Fin _, _ => Fin 0
  | _, Fin b =>
      match sign x with
      | Some sx => infinity (signMul sx (if Qc_eq_dec b 0 then Gt else (b ?= 0)%Qc))
      | None => NaN
      end
  | _, _ => NaN
  end.

(** [x < y]; every comparison with [NaN] is false. *)
Definition ltb (x y : number) : bool :=
  match x, y with
  | Fin a, Fin b => if Qclt_le_dec a b then true else false
  | NaN, _ | _, NaN => false
  | _, NegInfinity => false
  | NegInfinity, _ => true
  | PosInfinity, _ => false
  | _, PosInfinity => true
  end.

(** Modelled from the spec: [safeNumber] of [src/utils], which is not among
    the sources.  "Every computed coordinate is passed through a numeric
    sanitizer that maps non-finite results (NaN, infinity) to a safe default
    (0)";
    a finite number is passed through. *)
Definition safeNumber (x : number) : number :=
  if isFinite x then x else Fin 0.

End JsNumber.

Import JsNumber.

Declare Scope number_scope.
Delimit Scope number_scope with num.
Bind Scope number_scope with number.
Infix "+" := add : number_scope.
Infix "-" := sub : number_scope.
Infix "*" := mul : number_scope.
Infix "/" := div : number_scope.

(** ** Doubles *)

Module Double.

Import PrimFloat FloatOps SpecFloat.
Local Open Scope float_scope.

(** The double of a small count; exact below [2^53]. *)
Definition ofNat (n : nat) : float := of_uint63 (Uint63.of_Z (Z.of_nat n)).

Definition isFinite (x : float) : bool := is_finite x.

(** Modelled from the spec: [safeNumber] of [src/utils], which is not among
    the sources.  "Every computed coordinate is passed through a numeric
    sanitizer that maps non-finite results (NaN, infinity) to a safe default
    (0)";
    a finite number is passed through. *)
Definition safeNumber (x : float) : float :=
  if isFinite x then x else 0.

(** One exponentiation among those the language allows at the exponents
    [2] and [3]: the product of the factors.  It serves the examples; the
    evaluators below take the exponentiation of the engine as it comes. *)
Definition productPower (x y : float) : float :=
  if Leibniz.eqb y 2 then x * x
  else if Leibniz.eqb y 3 then x * x * x
  else nan.

(** [ToLength(x)], the length [Array.from] reads from [{ length: x }]: the
    integer part of [x], [0] for [NaN] and below [1], at most [2^53 - 1]. *)
Definition toLength (x : float) : Z :=
  match Prim2SF x with
  | S754_finite false m e =>
      Z.min (if (0 <=? e)%Z then Z.pos m * 2 ^ e else Z.pos m / 2 ^ (- e))
            (2 ^ 53 - 1)
  | S754_infinity false => 2 ^ 53 - 1
  | _ => 0
  end.

End Double.

(** ** bezier.ts *)

Module Bezier.

Import PrimFloat Double.
Local Open Scope float_scope.

Inductive curveType : Type := cubic | quadratic.

Section Exponentiation.

(** [x ** y].  The language fixes the result at the special values only
    and leaves the rounding of every other power to the engine
    (Number::exponentiate returns an "implementation-approximated" value),
    so the exponentiation is a parameter of the evaluators. *)
Variable power : float -> float -> float.

(** [controlCoordinates[k][i]]: a missing control point is [undefined], and
    indexing it throws; a missing coordinate is [undefined], which the
    arithmetic around it turns into [NaN]. *)
Definition coordinate (controlCoordinates : list (list float)) (k i : nat)
  : result float :=
  match nth_error controlCoordinates k with
  | None => Throw TypeError
  | Some point =>
      match nth_error point i with
      | Some v => Ok v
      | None => Ok nan
      end
  end.

Definition getPointOfCubicCurve (controlCoordinates : list (list float))
    (section : float) : result (list float) :=
  mapM (fun i =>
          c0 <- coordinate controlCoordinates 0 i ;;
          c1 <- coordinate controlCoordinates 1 i ;;
          c2 <- coordinate controlCoordinates 2 i ;;
          c3 <- coordinate controlCoordinates 3 i ;;
          let coordinates :=
            c0 * power (1 - section) 3 +
            3 * c1 * section * power (1 - section) 2 +
            3 * c2 * power section 2 * (1 - section) +
            c3 * power section 3 in
          Ok (safeNumber coordinates))
       (seq 0 2).

Definition getPointOfQuadraticCurve (controlCoordinates : list (list float))
    (section : float) : result (list float) :=
  mapM (fun i =>
          c0 <- coordinate controlCoordinates 0 i ;;
          c1 <- coordinate controlCoordinates 1 i ;;
          c2 <- coordinate controlCoordinates 2 i ;;
          let coordinates :=
            c0 * power (1 - section) 2 +
            2 * c1 * section * (1 - section) +
            c2 * power section 2 in
          Ok (safeNumber coordinates))
       (seq 0 2).

Definition InvalidSampleCount : exn :=
  Error "Requested amount of points must be positive".

(** [nbPoints] is a number: [Array.from({ length: nbPoints }, ...)] makes
    [ToLength(nbPoints)] calls of the callback, none for [NaN] and for a
    count below [1].  The closing [throw new Error(...)] for an invalid
    curve type, at the end of the callback, has no counterpart:
    [curveType] has the two values of the parameter's type, and each
    returns. *)
Definition curveToPoints (type : curveType)
    (controlPoints : list (list float)) (nbPoints : float)
  : result (list (list float)) :=
  if nbPoints <=? 0 then Throw InvalidSampleCount
  else
    let nbPoints := if 100 <? nbPoints then 100 else nbPoints in
    mapM (fun index =>
            let section :=
              safeNumber (((100 / nbPoints) * (ofNat index + 1)) / 100) in
            match type with
            | cubic => getPointOfCubicCurve controlPoints section
            | quadratic => getPointOfQuadraticCurve controlPoints section
            end)
         (seq 0 (Z.to_nat (toLength nbPoints))).

(** The default of the third parameter, [nbPoints = 10]. *)
Definition curveToPointsDefault type controlPoints :=
  curveToPoints type controlPoints 10.

End Exponentiation.

End Bezier.

(** ** types.ts *)

Module RawElement.

Record t : Type := make {
  type : string;
  x : number;
  y : number;
  width : number;
  height : number;
  points : list (list number);
}.

End RawElement.

(** ** The document tree

    The part of the DOM that [walker.ts] consumes.  A node is an element
    (tag name, attributes in document order, children) or a node of another
    kind (document, text, comment), whose [nodeName] is the kind after a
    hash sign and which has no [tagName]. *)

Module Dom.

Inductive Node : Type :=
| Element (tagName : string) (attributes : list (string * string))
          (childNodes : list Node)
| Other (kind : string) (childNodes : list Node).

Definition nodeName (n : Node) : string :=
  match n with
  | Element tag _ _ => tag
  | Other kind _ => String "#" kind
  end.

(** [node.tagName], [undefined] on a node that is not an element. *)
Definition tagName (n : Node) : option string :=
  match n with
  | Element tag _ _ => Some tag
  | Other _ _ => None
  end.

Definition attributes (n : Node) : list (string * string) :=
  match n with
  | Element _ attrs _ => attrs
  | Other _ _ => []
  end.

Definition childNodes (n : Node) : list Node :=
  match n with
  | Element _ _ children => children
  | Other _ children => children
  end.

Fixpoint lookupAttr (name : string) (attrs : list (string * string))
  : option string :=
  match attrs with
  | [] => None
  | (n, v) :: rest => if String.eqb n name then Some v else lookupAttr name rest
  end.

(** [el.getAttribute(name)], [None] for [null]. *)
Definition getAttribute (el : Node) (name : string) : option string :=
  lookupAttr name (attributes el).

Definition hasAttribute (el : Node) (name : string) : bool :=
  match getAttribute el name with
  | Some _ => true
  | None => false
  end.

(** An existing attribute keeps its place and takes the new value; a new
    one is appended. *)
Fixpoint setAttr (name value : string) (attrs : list (string * string))
  : list (string * string) :=
  match attrs with
  | [] => [(name, value)]
  | (n, v) :: rest =>
      if String.eqb n name then (n, value) :: rest
      else (n, v) :: setAttr name value rest
  end.

Definition setAttribute (el : Node) (name value : string) : Node :=
  match el with
  | Element tag attrs children => Element tag (setAttr name value attrs) children
  | Other _ _ => el
  end.

(** [el.cloneNode()]: the copy has the attributes and no children. *)
Definition cloneNode (el : Node) : Node :=
  match el with
  | Element tag attrs _ => Element tag attrs []
  | Other kind _ => Other kind []
  end.

(** A position in a tree: the child indices from the node up to the top of
    the tree, innermost first.  [i :: p] is child [i] of the node at [p]. *)
Definition path : Type := list nat.

Fixpoint nodeAt (top : Node) (p : path) : option Node :=
  match p with
  | [] => Some top
  | i :: parent =>
      match nodeAt top parent with
      | Some n => nth_error (childNodes n) i
      | None => None
      end
  end.

Definition childrenAt (top : Node) (p : path) : list Node :=
  match nodeAt top p with
  | Some n => childNodes n
  | None => []
  end.

Definition path_eqb (p q : path) : bool :=
  if list_eq_dec Nat.eq_dec p q then true else false.

(** *** TreeWalker

    The two results a filter of this program gives ([nodeValidator] never
    answers [FILTER_SKIP]), and the steps [nextNode] and [nextSibling] of
    the DOM standard for such a filter: a rejected node is passed with its
    subtree, and no step leaves the subtree of the root. *)

Inductive FilterResult : Type := FILTER_ACCEPT | FILTER_REJECT.

Record TreeWalker : Type := {
  top : Node;            (* the tree the walker's root lives in *)
  root : path;
  currentNode : path;
  acceptNode : Node -> FilterResult;
}.

Definition accepts (tw : TreeWalker) (n : Node) : bool :=
  match acceptNode tw n with
  | FILTER_ACCEPT => true
  | FILTER_REJECT => false
  end.

Definition setCurrentNode (tw : TreeWalker) (p : path) : TreeWalker :=
  {| top := top tw; root := root tw; currentNode := p;
     acceptNode := acceptNode tw |}.

(** The node under the cursor.  When a step returns a node, that node is
    the one under the cursor afterwards ([nextNode_current],
    [nextSibling_current]), so the default is not used then. *)
Definition current (tw : TreeWalker) : Node :=
  match nodeAt (top tw) (currentNode tw) with
  | Some n => n
  | None => top tw
  end.

(** The candidates [siblings], children of [parent] from index [j] on, are
    filtered in turn; a rejected one is left for its next sibling, unless
    it is the root.  When none is left the search goes [up]. *)
Fixpoint scanFollowing (tw : TreeWalker) (parent : path)
    (up : option path) (siblings : list Node) (j : nat) : option path :=
  match siblings with
  | [] => up
  | s :: rest =>
      if accepts tw s then Some (j :: parent)
      else if path_eqb (j :: parent) (root tw) then None
      else scanFollowing tw parent up rest (S j)
  end.

(** The node that follows [temporary] and its subtree in document order,
    inside the root: its next sibling, else the next sibling of the
    nearest ancestor that has one. *)
Fixpoint following (tw : TreeWalker) (temporary : path) : option path :=
  if path_eqb temporary (root tw) then None
  else
    match temporary with
    | [] => None
    | i :: parent =>
        scanFollowing tw parent (following tw parent)
          (skipn (S i) (childrenAt (top tw) parent)) (S i)
    end.

Definition moveTo (tw : TreeWalker) (target : option path)
  : TreeWalker * option Node :=
  match target with
  | Some p => (setCurrentNode tw p, nodeAt (top tw) p)
  | None => (tw, None)
  end.

(** [tw.nextNode()]: the walker after the call and the node returned.
    The first child is filtered; when there is none, or when it is
    rejected, the search goes on with the nodes that follow. *)
Definition nextNode (tw : TreeWalker) : TreeWalker * option Node :=
  let node := currentNode tw in
  moveTo tw
    match childrenAt (top tw) node with
    | child :: _ =>
        if accepts tw child then Some (0%nat :: node)
        else following tw (0%nat :: node)
    | [] => following tw node
    end.

Fixpoint scanSiblings (tw : TreeWalker) (siblings : list Node) (j : nat)
  : option nat :=
  match siblings with
  | [] => None
  | s :: rest => if accepts tw s then Some j else scanSiblings tw rest (S j)
  end.

Fixpoint traverseSiblings (tw : TreeWalker) (node : path) : option path :=
  match node with
  | [] => None
  | i :: parent =>
      match scanSiblings tw (skipn (S i) (childrenAt (top tw) parent)) (S i) with
      | Some j => Some (j :: parent)
      | None =>
          if path_eqb parent (root tw) then None
          else
            match nodeAt (top tw) parent with
            | None => None
            | Some p =>
                if accepts tw p then None else traverseSiblings tw parent
            end
      end
  end.

(** [tw.nextSibling()]: the first accepted sibling after the cursor; when
    there is none the search ends at the parent, unless the parent is
    itself rejected (and is not the root), in which case it goes on with
    the siblings of the parent. *)
Definition nextSibling (tw : TreeWalker) : TreeWalker * option Node :=
  if path_eqb (currentNode tw) (root tw) then (tw, None)
  else moveTo tw (traverseSiblings tw (currentNode tw)).

End Dom.

(** ** Objects

    A target element is a plain object built with spreads, so it is embedded
    as one: fields in insertion order, a later definition of a field
    replacing the earlier value. *)

Module JsObject.

Inductive value : Type :=
| VNumber (n : number)
| VString (s : string)
| VPoints (ps : list (list number))
| VStrings (ss : list string).

Definition t : Type := list (string * value).

Fixpoint field (o : t) (name : string) : option value :=
  match o with
  | [] => None
  | (n, v) :: rest => if String.eqb n name then Some v else field rest name
  end.

Fixpoint setField (name : string) (v : value) (o : t) : t :=
  match o with
  | [] => [(name, v)]
  | (n, w) :: rest =>
      if String.eqb n name then (n, v) :: rest
      else (n, w) :: setField name v rest
  end.

(** [{ ...a, ...b }], and [{ ...a, k1: v1, k2: v2 }] when [b] lists the
    fields written out after the spread. *)
Definition spread (a b : t) : t :=
  fold_left (fun o kv => setField (fst kv) (snd kv) o) b a.

Definition ofRawElement (e : RawElement.t) : t :=
  [ ("type", VString (RawElement.type e));
    ("x", VNumber (RawElement.x e));
    ("y", VNumber (RawElement.y e));
    ("width", VNumber (RawElement.width e));
    ("height", VNumber (RawElement.height e));
    ("points", VPoints (RawElement.points e)) ]%string.

End JsObject.

(** ** walker.ts *)

Module Walker.

Import Dom.
Local Open Scope string_scope.
Local Open Scope list_scope.

(** Modelled from the spec: what [walker.ts] imports and the sources do not
    hold, taken as parameters: the attribute mappers of [./attributes], the
    factories of [./elements/ExcalidrawElement], [Group] and [getGroupAttrs]
    of [./elements/Group], the path-data parser of [./elements],
    [getTransformMatrix] of [./transform], the two gl-matrix operations and
    the selector engine of the document ([querySelector] answers [None]
    for [null]).  The spec has the attribute mappers return partial style
    fields and the factories neutral defaults, while [groupIds] is one of
    the fields that only the core sets; so no mapper defines [groupIds] and
    a factory's [groupIds] is empty. *)
Class Collaborators : Type := {
  Group : Type;
  Group_new : Node -> Group;                 (* [new Group(node)] *)
  Group_id : Group -> string;                (* [g.id] *)
  getGroupAttrs : list Group -> JsObject.t;
  presAttrsToElementValues : Node -> JsObject.t;
  filterAttrsToElementValues : Node -> JsObject.t;
  getNum : Node -> string -> number -> number;
  getTransformMatrix : Node -> list Group -> list number;
  mat4_multiply : list number -> list number -> list number;
  vec3_transformMat4 : list number -> list number -> list number;
  createExRect : JsObject.t;
  createExEllipse : JsObject.t;
  createExLine : JsObject.t;
  path_convert : Node -> list RawElement.t;  (* [elementsConverter.path.convert] *)
  querySelector : Node -> string -> option Node;
  getGroupAttrs_style : forall gs, JsObject.field (getGroupAttrs gs) "groupIds" = None;
  presAttrs_style : forall el, JsObject.field (presAttrsToElementValues el) "groupIds" = None;
  filterAttrs_style : forall el, JsObject.field (filterAttrsToElementValues el) "groupIds" = None;
  createExRect_groupIds : JsObject.field createExRect "groupIds" = Some (JsObject.VStrings []);
  createExEllipse_groupIds : JsObject.field createExEllipse "groupIds" = Some (JsObject.VStrings []);
  createExLine_groupIds : JsObject.field createExLine "groupIds" = Some (JsObject.VStrings []);
}.

Definition SUPPORTED_TAGS : list string :=
  ["svg"; "path"; "g"; "use"; "circle"; "ellipse"; "rect"; "polyline"].

(** [list.includes(s)] for a string that may be [undefined]. *)
Definition includes (l : list string) (s : option string) : bool :=
  match s with
  | Some s => existsb (String.eqb s) l
  | None => false
  end.

Definition minPointStep (minPoint : number * number) (element : RawElement.t)
  : number * number :=
  let minPoint :=
    if ltb (RawElement.x element) (fst minPoint)
    then (RawElement.x element, snd minPoint) else minPoint in
  let minPoint :=
    if ltb (RawElement.y element) (snd minPoint)
    then (fst minPoint, RawElement.y element) else minPoint in
  minPoint.

(** [p[i]] of a point, [undefined] (so [NaN] in arithmetic) past its end. *)
Definition coord (p : list number) (i : nat) : number := nth i p NaN.

Definition calculateElementsPositions (elements : list RawElement.t)
  : list RawElement.t :=
  let '(minX, minY) :=
    fold_left minPointStep elements (PosInfinity, PosInfinity) in
  map (fun element =>
         let x := safeNumber (RawElement.x element - minX) in
         let y := safeNumber (RawElement.y element - minY) in
         {| RawElement.type := RawElement.type element;
            RawElement.width := RawElement.width element;
            RawElement.height := RawElement.height element;
            RawElement.points :=
              map (fun p =>
                     [ safeNumber (coord p 0 - x - minX);
                       safeNumber (coord p 1 - y - minY) ])
                  (RawElement.points element);
            RawElement.x := x;
            RawElement.y := y |})
      elements.

Definition nodeValidator (node : Node) : FilterResult :=
  if includes SUPPORTED_TAGS (tagName node) then FILTER_ACCEPT
  else FILTER_REJECT.

(** [document.createTreeWalker(node, NodeFilter.SHOW_ALL, ...)] for the
    node at [p] of the tree [top]. *)
Definition createTreeWalker (top : Node) (p : path) : TreeWalker :=
  {| Dom.top := top; Dom.root := p; currentNode := p;
     acceptNode := nodeValidator |}.

(** [walkers] is an object literal: besides its ten keys it answers to the
    names it inherits from [Object.prototype], so that [walkers[nodeName]] is
    not [undefined] there.  [walkers.__proto__] is an object and no function,
    and [__defineGetter__] and [__defineSetter__], called with [args] alone,
    refuse the missing accessor function: the call [walkers[nodeName](args)]
    throws a TypeError at these three.  The other members are functions that
    return, whatever [args] is. *)
Definition inheritedThrowing : list string :=
  ["__proto__"; "__defineGetter__"; "__defineSetter__"].

Definition inheritedReturning : list string :=
  ["constructor"; "hasOwnProperty"; "isPrototypeOf"; "propertyIsEnumerable";
   "toLocaleString"; "toString"; "valueOf";
   "__lookupGetter__"; "__lookupSetter__"].

Definition skippedUseAttrs : list string := ["id"].
Definition allwaysPassedUseAttrs : list string :=
  ["x"; "y"; "width"; "height"; "href"; "xlink:href"].

(** [s || ""] on what [getAttribute] returns. *)
Definition orEmpty (s : option string) : string :=
  match s with
  | Some s => s
  | None => ""
  end.

Definition getDefElWithCorrectAttrs (defEl useEl : Node) : Node :=
  fold_left
    (fun el (attr : string * string) =>
       let (name, value) := attr in
       if includes skippedUseAttrs (Some value) then el
       else if negb (hasAttribute defEl name)
               || includes allwaysPassedUseAttrs (Some name)
       then setAttribute el name (orEmpty (getAttribute useEl name))
       else el)
    (attributes useEl) (cloneNode defEl).

(** How a call of [walk] ends.  [OutOfFuel] is the embedding's: the
    recursion of [walk] is cut after a given number of calls. *)
Inductive completion : Type :=
| Returned
| Thrown (e : exn)
| OutOfFuel.

Section Walkers.

Context {C : Collaborators}.

(** [scene.elements] of the scene object the traversal appends to; it is
    threaded through the calls, and a throw leaves it as it was at that
    moment. *)
Definition Scene : Type := list JsObject.t.

Record WalkerArgs : Type := {
  root : Node;
  tw : TreeWalker;
  groups : list Group;
}.

Definition withTw (args : WalkerArgs) (tw' : TreeWalker) : WalkerArgs :=
  {| root := root args; tw := tw'; groups := groups args |}.

Definition presAttrs (el : Node) (groups : list Group) : JsObject.t :=
  JsObject.spread
    (JsObject.spread (getGroupAttrs groups) (presAttrsToElementValues el))
    (filterAttrsToElementValues el).

Definition ReferenceNotFound_noId : exn :=
  Error "unable to get id of use element".
Definition ReferenceNotFound_noDef (id : string) : exn :=
  Error ("unable to find def element with id: " ++ id)%string.
Definition EmptyResolution : exn :=
  Error "Unable to create ex element".

(** A string read from an attribute is truthy when it is there and not
    empty. *)
Definition truthy (s : option string) : bool :=
  match s with
  | Some s => negb (String.eqb s "")
  | None => false
  end.

(** [a || b] *)
Definition orElse (a b : option string) : option string :=
  if truthy a then a else b.

(** [arr.pop()]: the last element and the array without it. *)
Definition pop {A} (l : list A) : option A * list A :=
  match rev l with
  | [] => (None, l)
  | a :: r => (Some a, rev r)
  end.

Definition num (z : Z) : number := ofZ z.

Definition box (w h x y : number) : list number :=
  [ w; num 0; num 0; num 0;
    num 0; h; num 0; num 0;
    num 0; num 0; num 1; num 0;
    x; y; num 0; num 1 ].

Definition boxFields (result : list number) : JsObject.t :=
  [ ("x", JsObject.VNumber (coord result 12));
    ("y", JsObject.VNumber (coord result 13));
    ("width", JsObject.VNumber (coord result 0));
    ("height", JsObject.VNumber (coord result 5)) ].

Section Dispatch.

(** The recursive calls of the walkers go through [walk]. *)
Variable walk : WalkerArgs -> option Node -> Scene -> Scene * completion.

(** [walk(args, args.tw.nextNode())] *)
Definition walkNextNode (args : WalkerArgs) (scene : Scene) :=
  let (tw', next) := nextNode (tw args) in
  walk (withTw args tw') next scene.

Definition svg (args : WalkerArgs) (scene : Scene) :=
  walkNextNode args scene.

Definition g (args : WalkerArgs) (scene : Scene) :=
  let nextArgs :=
    {| root := root args;
       tw := createTreeWalker (top (tw args)) (currentNode (tw args));
       groups := groups args ++ [Group_new (current (tw args))] |} in
  match walkNextNode nextArgs scene with
  | (scene', Returned) =>
      let (tw', next) := nextSibling (tw args) in
      walk (withTw args tw') next scene'
  | thrown => thrown
  end.

(** The expansion of a [use] node, up to and including
    [scene.elements.push(exEl)]. *)
Definition useExpansion (args : WalkerArgs) (scene : Scene)
  : Scene * completion :=
  let useEl := current (tw args) in
  let id :=
    orElse (getAttribute useEl "href") (getAttribute useEl "xlink:href") in
  if negb (truthy id) then (scene, Thrown ReferenceNotFound_noId)
  else
      match querySelector (root args) (orEmpty id) with
      | None => (scene, Thrown (ReferenceNotFound_noDef (orEmpty id)))
      | Some defEl =>
          let finalEl := getDefElWithCorrectAttrs defEl useEl in
          let subArgs :=
            {| root := root args;
               tw := createTreeWalker finalEl [];
               groups := groups args |} in
          match walk subArgs (Some finalEl) [] with
          | (tempScene, Returned) =>
              match pop tempScene with
              | (None, _) => (scene, Thrown EmptyResolution)
              | (Some exEl, _) => (scene ++ [exEl], Returned)
              end
          | (_, stopped) => (scene, stopped)
          end
      end.

Definition use (args : WalkerArgs) (scene : Scene) :=
  match useExpansion args scene with
  | (scene', Returned) => walkNextNode args scene'
  | thrown => thrown
  end.

Definition circle (args : WalkerArgs) (scene : Scene) :=
  let el := current (tw args) in
  let r := getNum el "r" (num 0) in
  let d := (r * num 2)%num in
  let x := (getNum el "x" (num 0) + getNum el "cx" (num 0) - r)%num in
  let y := (getNum el "y" (num 0) + getNum el "cy" (num 0) - r)%num in
  let mat := getTransformMatrix el (groups args) in
  let m := box d d x y in
  let result := mat4_multiply mat m in
  let circle :=
    JsObject.spread
      (JsObject.spread createExEllipse (presAttrs el (groups args)))
      (boxFields result ++
       [("groupIds", JsObject.VStrings (map Group_id (groups args)))]) in
  walkNextNode args (scene ++ [circle]).

Definition ellipse (args : WalkerArgs) (scene : Scene) :=
  let el := current (tw args) in
  let rx := getNum el "rx" (num 0) in
  let ry := getNum el "ry" (num 0) in
  let cx := getNum el "cx" (num 0) in
  let cy := getNum el "cy" (num 0) in
  let x := (getNum el "x" (num 0) + cx - rx)%num in
  let y := (getNum el "y" (num 0) + cy - ry)%num in
  let w := (rx * num 2)%num in
  let h := (ry * num 2)%num in
  let mat := getTransformMatrix el (groups args) in
  let m := box w h x y in
  let result := mat4_multiply mat m in
  let ellipse :=
    JsObject.spread
      (JsObject.spread createExEllipse (presAttrs el (groups args)))
      (boxFields result ++
       [("groupIds", JsObject.VStrings (map Group_id (groups args)))]) in
  walkNextNode args (scene ++ [ellipse]).

(** [line] and [polygon]: unimplemented, the traversal goes on. *)
Definition line (args : WalkerArgs) (scene : Scene) :=
  walkNextNode args scene.

Definition polygon (args : WalkerArgs) (scene : Scene) :=
  walkNextNode args scene.

Definition polyline (args : WalkerArgs) (scene : Scene) :=
  let groupAttrs := getGroupAttrs (groups args) in
  let line := JsObject.spread createExLine groupAttrs in
  walkNextNode args (scene ++ [line]).

Definition rect (args : WalkerArgs) (scene : Scene) :=
  let el := current (tw args) in
  let x := getNum el "x" (num 0) in
  let y := getNum el "y" (num 0) in
  let w := getNum el "width" (num 0) in
  let h := getNum el "height" (num 0) in
  let mat := getTransformMatrix el (groups args) in
  let m := box w h x y in
  let result := mat4_multiply mat m in
  let isRound := hasAttribute el "rx" || hasAttribute el "ry" in
  let rect :=
    JsObject.spread
      (JsObject.spread createExRect (presAttrs el (groups args)))
      (boxFields result ++
       [("strokeSharpness",
         JsObject.VString (if isRound then "round" else "sharp"))]) in
  walkNextNode args (scene ++ [rect]).

Definition path (args : WalkerArgs) (scene : Scene) :=
  let el := current (tw args) in
  let pathElements := path_convert el in
  let mat := getTransformMatrix el (groups args) in
  let exPaths :=
    map (fun exp =>
           let points :=
             map (fun p =>
                    let v :=
                      vec3_transformMat4 [coord p 0; coord p 1; num 1] mat in
                    [coord v 0; coord v 1])
                 (RawElement.points exp) in
           JsObject.spread
             (JsObject.setField "points" (JsObject.VPoints points)
                (JsObject.ofRawElement exp))
             (presAttrs el (groups args)))
        (calculateElementsPositions pathElements) in
  walkNextNode args (scene ++ exPaths).

(** What [walkers[nodeName]] finds at a name that [walkers] inherits, when
    it is called with [args]. *)
Definition notCallable (args : WalkerArgs) (scene : Scene)
  : Scene * completion :=
  (scene, Thrown TypeError).

Definition inert (args : WalkerArgs) (scene : Scene) : Scene * completion :=
  (scene, Returned).

(** [walkers[nodeName]]: the ten walkers, then the members of
    [Object.prototype]. *)
Definition walkers (nodeName : string)
  : option (WalkerArgs -> Scene -> Scene * completion) :=
  if nodeName =? "svg" then Some svg
  else if nodeName =? "g" then Some g
  else if nodeName =? "use" then Some use
  else if nodeName =? "circle" then Some circle
  else if nodeName =? "ellipse" then Some ellipse
  else if nodeName =? "line" then Some line
  else if nodeName =? "polygon" then Some polygon
  else if nodeName =? "polyline" then Some polyline
  else if nodeName =? "rect" then Some rect
  else if nodeName =? "path" then Some path
  else if includes inheritedThrowing (Some nodeName) then Some notCallable
  else if includes inheritedReturning (Some nodeName) then Some inert
  else None.

Definition walkBody (args : WalkerArgs) (nextNode : option Node)
    (scene : Scene) : Scene * completion :=
  match nextNode with
  | None => (scene, Returned)
  | Some node =>
      match walkers (nodeName node) with
      | Some walker => walker args scene
      | None => (scene, Returned)
      end
  end.

End Dispatch.

Fixpoint walk (fuel : nat) (args : WalkerArgs) (nextNode : option Node)
    (scene : Scene) : Scene * completion :=
  match fuel with
  | O => (scene, OutOfFuel)
  | S fuel' => walkBody (walk fuel') args nextNode scene
  end.

End Walkers.

End Walker.

(** ** walker.ts: the position normalizer on doubles *)

Module WalkerDouble.

Import PrimFloat Double.
Local Open Scope float_scope.

(** [RawElement] of [types.ts]. *)
Record RawElement : Type := {
  type : string;
  x : float;
  y : float;
  width : float;
  height : float;
  points : list (list float);
}.

Definition minPointStep (minPoint : float * float) (element : RawElement)
  : float * float :=
  let minPoint :=
    if x element <? fst minPoint then (x element, snd minPoint)
    else minPoint in
  let minPoint :=
    if y element <? snd minPoint then (fst minPoint, y element)
    else minPoint in
  minPoint.

(** [p[i]] of a point, [undefined] (so [NaN] in arithmetic) past its end. *)
Definition coord (p : list float) (i : nat) : float := nth i p nan.

Definition calculateElementsPositions (elements : list RawElement)
  : list RawElement :=
  let '(minX, minY) :=
    fold_left minPointStep elements (infinity, infinity) in
  map (fun element =>
         let x' := safeNumber (x element - minX) in
         let y' := safeNumber (y element - minY) in
         {| type := type element;
            width := width element;
            height := height element;
            points :=
              map (fun p =>
                     [ safeNumber (coord p 0 - x' - minX);
                       safeNumber (coord p 1 - y' - minY) ])
                  (points element);
            x := x';
            y := y' |})
      elements.

End WalkerDouble.

(** ** A fixture

    Concrete collaborators to run the walker on sample documents: groups are
    named after the [id] attribute of their node, no style is mapped, numeric
    attributes take their defaults, transforms are the identity, a path
    yields two sub-shapes, and a selector is a hash sign and an id. *)

Module Fixture.

Import Dom Walker.
Local Open Scope string_scope.
Local Open Scope list_scope.

Fixpoint findById (id : string) (n : Node) : option Node :=
  let inChildren :=
    fix go (children : list Node) : option Node :=
      match children with
      | [] => None
      | c :: rest =>
          match findById id c with
          | Some found => Some found
          | None => go rest
          end
      end in
  match n with
  | Element _ attrs children =>
      match lookupAttr "id" attrs with
      | Some v => if String.eqb v id then Some n else inChildren children
      | None => inChildren children
      end
  | Other _ children => inChildren children
  end.

Definition byIdSelector (root : Node) (selector : string) : option Node :=
  match selector with
  | String "#" id => findById id root
  | _ => None
  end.

Definition subShape (x y : Z) (points : list (Z * Z)) : RawElement.t :=
  {| RawElement.type := "line";
     RawElement.x := ofZ x;
     RawElement.y := ofZ y;
     RawElement.width := ofZ 2;
     RawElement.height := ofZ 1;
     RawElement.points := map (fun p => [ofZ (fst p); ofZ (snd p)]) points |}.

Definition factory (type : string) : JsObject.t :=
  [ ("type", JsObject.VString type); ("groupIds", JsObject.VStrings []) ].

#[export] Instance collaborators : Collaborators := {|
  Group := string;
  Group_new := fun node => orEmpty (getAttribute node "id");
  Group_id := fun g => g;
  getGroupAttrs := fun _ => [];
  presAttrsToElementValues := fun _ => [];
  filterAttrsToElementValues := fun _ => [];
  getNum := fun _ _ default => default;
  getTransformMatrix := fun _ _ => [];
  mat4_multiply := fun _ m => m;
  vec3_transformMat4 := fun v _ => v;
  createExRect := factory "rectangle";
  createExEllipse := factory "ellipse";
  createExLine := factory "line";
  path_convert := fun _ =>
    [ subShape 10 10 [(10, 10); (12, 11)]; subShape 15 10 [(15, 10); (17, 11)] ]%Z;
  querySelector := byIdSelector;
  getGroupAttrs_style := fun _ => eq_refl;
  presAttrs_style := fun _ => eq_refl;
  filterAttrs_style := fun _ => eq_refl;
  createExRect_groupIds := eq_refl;
  createExEllipse_groupIds := eq_refl;
  createExLine_groupIds := eq_refl;
|}.

Definition document (children : list Node) : Node :=
  Other "document" [Element "svg" [] children].

(** [walk({ root, tw, scene, groups: [] }, tw.nextNode())] on a fresh
    scene, with [tw = createTreeWalker(root)]. *)
Definition convert (fuel : nat) (root : Node) : Scene * completion :=
  walkNextNode (walk fuel)
    {| Walker.root := root; tw := createTreeWalker root []; groups := [] |} [].

End Fixture.

(** * Notions the properties are stated with *)

(** ** Curve sampling *)

Module BezierSpec.

Import PrimFloat Double Bezier.
Local Open Scope float_scope.

(** The control points a curve type reads: three for a quadratic curve, four
    for a cubic one. *)
Definition enoughControlPoints (type : curveType)
    (controlPoints : list (list float)) : Prop :=
  match type with
  | cubic => (4 <= List.length controlPoints)%nat
  | quadratic => (3 <= List.length controlPoints)%nat
  end.

Definition coordinateOr (controlCoordinates : list (list float)) (k i : nat)
  : float :=
  nth i (nth k controlCoordinates []) nan.

Section Exponentiation.

Variable power : float -> float -> float.

(** [B(t) = P0(1-t)^3 + 3 P1 t(1-t)^2 + 3 P2 t^2(1-t) + P3 t^3], on one
    coordinate, in doubles, operation by operation. *)
Definition cubicBezier (p0 p1 p2 p3 t : float) : float :=
  p0 * power (1 - t) 3 + 3 * p1 * t * power (1 - t) 2 +
  3 * p2 * power t 2 * (1 - t) + p3 * power t 3.

(** [B(t) = P0(1-t)^2 + 2 P1 t(1-t) + P2 t^2], likewise. *)
Definition quadraticBezier (p0 p1 p2 t : float) : float :=
  p0 * power (1 - t) 2 + 2 * p1 * t * (1 - t) + p2 * power t 2.

(** The point of a curve at [t], as the evaluators return it. *)
Definition cubicPoint (x0 y0 x1 y1 x2 y2 x3 y3 t : float) : list float :=
  [ safeNumber (cubicBezier x0 x1 x2 x3 t);
    safeNumber (cubicBezier y0 y1 y2 y3 t) ].

Definition quadraticPoint (x0 y0 x1 y1 x2 y2 t : float) : list float :=
  [ safeNumber (quadraticBezier x0 x1 x2 t);
    safeNumber (quadraticBezier y0 y1 y2 t) ].

(** The exponentiation is exact at the two ends of a curve: the powers of
    [0] are [0], as the language requires, and those of [1] are [1]. *)
Definition exactAtEnds : Prop :=
  power 0 2 = 0 /\ power 0 3 = 0 /\ power 1 2 = 1 /\ power 1 3 = 1.

End Exponentiation.

(** The requested count after the clamp, and the number of samples made. *)
Definition effectiveCount (nbPoints : float) : float :=
  if 100 <? nbPoints then 100 else nbPoints.

Definition sampleCount (nbPoints : float) : nat :=
  Z.to_nat (toLength (effectiveCount nbPoints)).

(** The section the code computes for sample [k] of [m], and the double
    [(k + 1) / m]. *)
Definition section (m k : nat) : float :=
  safeNumber (((100 / ofNat m) * (ofNat k + 1)) / 100).

Definition parameter (m k : nat) : float := ofNat (S k) / ofNat m.

(** The section is above [0], at most the double that follows [1], and at
    most two doubles away from [(k + 1) / m]. *)
Definition nearParameter (m k : nat) : bool :=
  (0 <? section m k) && (section m k <=? next_up 1) &&
  (next_down (next_down (parameter m k)) <=? section m k) &&
  (section m k <=? next_up (next_up (parameter m k))).

(** A whole count [m] passes both tests of [curveToPoints] and makes [m]
    samples. *)
Definition wholeCount (m : nat) : bool :=
  negb (ofNat m <=? 0) && negb (100 <? ofNat m) &&
  (toLength (ofNat m) =? Z.of_nat m)%Z.

(** The counts up to [100] whose last section is not [1]. *)
Definition overshooting : list nat :=
  filter (fun m => negb (Leibniz.eqb (section m (m - 1)) 1)) (seq 1 100).

(** The curves of the specification's examples. *)
Definition exampleCubic : list (list float) :=
  [[0; 0]; [0; 10]; [10; 10]; [10; 0]].

Definition exampleQuadratic : list (list float) :=
  [[0; 0]; [5; 10]; [10; 0]].

End BezierSpec.

(** ** Position normalization *)

Module NormalizerSpec.

Import Walker.

Definition leq (a b : number) : Prop :=
  match a, b with
  | Fin p, Fin q => (p <= q)%Qc
  | _, _ => False
  end.

(** [m] is the least of the values [vs]. *)
Definition isMinimum (m : number) (vs : list number) : Prop :=
  In m vs /\ forall v, In v vs -> leq m v.

Definition isFinitePair (p : list number) : bool :=
  match p with
  | [Fin _; Fin _] => true
  | _ => false
  end.

(** A RawElement of the data model: a finite position, and points that are
    [[x, y]] pairs of finite numbers. *)
Definition wellFormed (e : RawElement.t) : bool :=
  isFinite (RawElement.x e) && isFinite (RawElement.y e)
  && forallb isFinitePair (RawElement.points e).

(** The points of an element, each taken relative to the element's own
    position. *)
Definition relativePoints (e : RawElement.t) : list (list number) :=
  map (fun p => [ (coord p 0 - RawElement.x e)%num;
                  (coord p 1 - RawElement.y e)%num ])
      (RawElement.points e).

(** The element moved by the minimum of the batch, its points relative to
    its own position, its other fields as they were. *)
Definition rebase (minX minY : number) (e : RawElement.t) : RawElement.t :=
  {| RawElement.type := RawElement.type e;
     RawElement.x := (RawElement.x e - minX)%num;
     RawElement.y := (RawElement.y e - minY)%num;
     RawElement.width := RawElement.width e;
     RawElement.height := RawElement.height e;
     RawElement.points := relativePoints e |}.

(** The element where it was, its points relative to its position. *)
Definition relocatePoints (e : RawElement.t) : RawElement.t :=
  {| RawElement.type := RawElement.type e;
     RawElement.x := RawElement.x e;
     RawElement.y := RawElement.y e;
     RawElement.width := RawElement.width e;
     RawElement.height := RawElement.height e;
     RawElement.points := relativePoints e |}.

(** One coordinate of [minPointStep]. *)
Definition minStep (m v : number) : number := if ltb v m then v else m.

(** Two sub-shapes in absolute coordinates, and the batch the normalizer
    makes of them. *)
Definition absoluteBatch : list RawElement.t :=
  [ Fixture.subShape 10 10 [(10, 10); (12, 11)];
    Fixture.subShape 15 10 [(15, 10); (17, 11)] ]%Z.

Definition normalizedBatch : list RawElement.t :=
  [ Fixture.subShape 0 0 [(0, 0); (2, 1)];
    Fixture.subShape 5 0 [(0, 0); (2, 1)] ]%Z.

End NormalizerSpec.

(** ** Position normalization, on doubles *)

Module NormalizerDoubleSpec.

Import PrimFloat Double WalkerDouble.
Local Open Scope float_scope.

(** A RawElement with a finite position. *)
Definition wellFormed (e : RawElement) : bool :=
  isFinite (x e) && isFinite (y e).

(** [m] is one of the values [vs] and, by the comparison of the code, none
    of them is below it. *)
Definition isLeast (m : float) (vs : list float) : Prop :=
  In m vs /\ forall v, In v vs -> (v <? m) = false.

(** Zero is one of the values [vs] and none of them is below zero. *)
Definition leastIsZero (vs : list float) : Prop :=
  In 0 vs /\ forall v, In v vs -> (0 <=? v) = true.

(** The element moved by the minimum of the batch, as the code computes it:
    the position is sanitized, and a point is taken relative to the new
    position and then moved back by the minimum. *)
Definition rebase (minX minY : float) (e : RawElement) : RawElement :=
  let x' := safeNumber (x e - minX) in
  let y' := safeNumber (y e - minY) in
  {| type := type e;
     x := x';
     y := y';
     width := width e;
     height := height e;
     points :=
       map (fun p => [ safeNumber (coord p 0 - x' - minX);
                       safeNumber (coord p 1 - y' - minY) ])
           (points e) |}.

(** One coordinate of [minPointStep]. *)
Definition minStep (m v : float) : float := if v <? m then v else m.

(** Two sub-shapes at [(10, 10)] and [(15, 10)]. *)
Definition wholeBatch : list RawElement :=
  [ {| type := "line"; x := 10; y := 10; width := 2; height := 1;
       points := [[10; 10]; [12; 11]] |};
    {| type := "line"; x := 15; y := 10; width := 2; height := 1;
       points := [[15; 10]; [17; 11]] |} ].

(** Two sub-shapes at [(0.1, 0)] and [(0.7, 0)], the second with a point at
    its own position. *)
Definition tenthsBatch : list RawElement :=
  [ {| type := "line"; x := 1 / 10; y := 0; width := 1; height := 1;
       points := [[1 / 10; 0]] |};
    {| type := "line"; x := 7 / 10; y := 0; width := 1; height := 1;
       points := [[7 / 10; 0]] |} ].

End NormalizerDoubleSpec.

(** ** Attribute merge of [use] *)

Module MergeSpec.

Import Dom Walker.
Local Open Scope string_scope.
Local Open Scope list_scope.

Definition isElement (n : Node) : bool :=
  match n with
  | Element _ _ _ => true
  | Other _ _ => false
  end.

(** One step of the reduction over the attributes of the [use] node. *)
Definition overlayStep (defEl useEl : Node) (el : Node) (attr : string * string)
  : Node :=
  let (name, value) := attr in
  if includes skippedUseAttrs (Some value) then el
  else if negb (hasAttribute defEl name)
          || includes allwaysPassedUseAttrs (Some name)
       then setAttribute el name (orEmpty (getAttribute useEl name))
       else el.

(** What the merged element holds under the name [k], from what the clone
    of the definition holds and what the [use] node holds. *)
Definition merged (defEl useEl : Node) (k : string) (inherited : option string)
    (useValue : option string) : option string :=
  match useValue with
  | None => inherited
  | Some v =>
      if includes skippedUseAttrs (Some v) then inherited
      else if negb (hasAttribute defEl k)
              || includes allwaysPassedUseAttrs (Some k)
           then Some (orEmpty (getAttribute useEl k))
           else inherited
  end.

Definition circleDef : Node := Element "circle" [("id", "dot"); ("r", "5")] [].
Definition useClassId : Node :=
  Element "use" [("href", "#dot"); ("class", "id")] [].
Definition circleNoId : Node := Element "circle" [("r", "5")] [].
Definition useWithId : Node :=
  Element "use" [("href", "circle"); ("id", "u1")] [].

End MergeSpec.

(** ** Traversal *)

Module TreeWalkerSpec.

Import Dom.

(** The position [p] lies in the subtree of the walker's root. *)
Definition within (tw : TreeWalker) (p : path) : Prop :=
  exists inner, p = inner ++ root tw.

(** The position [p] holds a node that the filter accepts. *)
Definition acceptedAt (tw : TreeWalker) (p : path) : Prop :=
  exists n, nodeAt (top tw) p = Some n /\ accepts tw n = true.

End TreeWalkerSpec.

Module WalkerSpec.

Import Dom Walker.
Local Open Scope string_scope.
Local Open Scope list_scope.

Definition unsupported (node : Node) : Prop :=
  includes SUPPORTED_TAGS (tagName node) = false.

Definition supported (node : Node) : Prop :=
  includes SUPPORTED_TAGS (tagName node) = true.

(** The tags whose walker appends one element. *)
Definition leafShape (name : string) : Prop :=
  name = "circle" \/ name = "ellipse" \/ name = "rect" \/ name = "polyline".

Section Use.

Context {C : Collaborators}.

Definition Walk : Type :=
  WalkerArgs -> option Node -> Scene -> Scene * completion.

(** The reference a [use] node under the cursor holds. *)
Definition useId (args : WalkerArgs) : option string :=
  orElse (getAttribute (current (tw args)) "href")
         (getAttribute (current (tw args)) "xlink:href").

(** The reference of the [use] node under the cursor resolves to [defEl]. *)
Definition resolves (args : WalkerArgs) (defEl : Node) : Prop :=
  truthy (useId args) = true /\
  querySelector (root args) (orEmpty (useId args)) = Some defEl.

(** The conversion of the merged element in its own scene. *)
Definition subConversion (walk : Walk) (args : WalkerArgs) (defEl : Node)
  : Scene * completion :=
  let finalEl := getDefElWithCorrectAttrs defEl (current (tw args)) in
  walk {| root := root args;
          tw := createTreeWalker finalEl [];
          groups := groups args |}
       (Some finalEl) [].

End Use.

End WalkerSpec.

(** ** Sample documents, for the fixture *)

Module Samples.

Import Dom Walker Fixture.
Local Open Scope string_scope.
Local Open Scope list_scope.

(** The arguments of a walker whose cursor is at [p] of the document. *)
Definition argsAt (root : Node) (p : Dom.path) : WalkerArgs :=
  {| Walker.root := root;
     tw := setCurrentNode (createTreeWalker root []) p;
     groups := [] |}.

Definition rectThenUse : Node :=
  document [ Element "rect" [("id", "r1")] [];
             Element "use" [("href", "#r1")] [];
             Element "circle" [] [] ].

Definition rectThenBrokenUse : Node :=
  document [ Element "rect" [] [];
             Element "use" [("href", "#missing")] [];
             Element "circle" [] [] ].

Definition pathThenUse : Node :=
  document [ Element "defs" [] [Element "path" [("id", "p")] []];
             Element "use" [("xlink:href", "#p")] [] ].

Definition nestedGroups : Node :=
  document [ Element "g" [("id", "A")]
               [ Element "g" [("id", "B")]
                   [ Element "rect" [] []; Element "circle" [] [] ] ] ].

Definition rectDefsCircle : Node :=
  document [ Element "rect" [] [];
             Element "defs" [] [Element "circle" [] []];
             Other "text" [];
             Element "circle" [] [] ].

End Samples.

(** ** Traversal *)

Module TraversalSpec.

Import Dom Walker WalkerSpec.
Local Open Scope string_scope.
Local Open Scope list_scope.

(** The tags whose walker appends to the scene. *)
Definition producingTags : list string :=
  ["use"; "circle"; "ellipse"; "polyline"; "rect"; "path"].

(** The names an object literal answers to without holding them: at these
    [walkers[nodeName]] is not [undefined], and it is no walker. *)
Definition inheritedKeys : list string :=
  ["constructor"; "hasOwnProperty"; "isPrototypeOf"; "propertyIsEnumerable";
   "toLocaleString"; "toString"; "valueOf"; "__proto__";
   "__defineGetter__"; "__defineSetter__";
   "__lookupGetter__"; "__lookupSetter__"].

(** A node name whose conversion appends nothing: a container ([svg], [g]),
    an unimplemented shape ([line], [polygon]) or a name [walkers] has no
    entry for. *)
Definition producesNothing (name : string) : Prop :=
  ~ In name producingTags /\ ~ In name inheritedKeys.

(** The element holds the reference [id] in its [href], under attribute
    names that are distinct, as those of a DOM element are. *)
Definition refersBy (id : string) (el : Node) : Prop :=
  NoDup (map fst (attributes el)) /\ getAttribute el "href" = Some id.

Section Frame.

Context {C : Collaborators}.

(** What [w] does to a scene is to append to it, and what it appends and
    how it ends do not depend on the scene. *)
Definition framed (w : Walk) : Prop :=
  forall args node scene,
    w args node scene = (scene ++ fst (w args node []), snd (w args node [])).

(** The arguments of the walk that [g] starts on the subtree of the group
    under the cursor. *)
Definition groupArgs (args : WalkerArgs) : WalkerArgs :=
  {| root := root args;
     tw := createTreeWalker (top (tw args)) (currentNode (tw args));
     groups := groups args ++ [Group_new (current (tw args))] |}.

End Frame.

End TraversalSpec.

(** ** More sample documents, for the fixture *)

Module UseSamples.

Import Dom Walker Fixture Samples.
Local Open Scope string_scope.
Local Open Scope list_scope.

Definition groupThenUse : Node :=
  document [ Element "g" [("id", "grp")] [Element "rect" [] []];
             Element "use" [("href", "#grp")] [] ].

Definition useInGroup : Node :=
  document [ Element "g" [("id", "A")]
               [ Element "circle" [("id", "c")] [];
                 Element "use" [("href", "#c")] [] ] ].

(** The arguments at the [use] of [useInGroup], inside the group [A]. *)
Definition useInGroupArgs : WalkerArgs :=
  {| Walker.root := useInGroup;
     tw := setCurrentNode (createTreeWalker useInGroup [0; 0]%nat) [1; 0; 0]%nat;
     groups := ["A"] |}.

Definition useOfUse : Node :=
  document [ Element "circle" [("id", "c")] [];
             Element "use" [("id", "u1"); ("href", "#c")] [];
             Element "use" [("href", "#u1")] [] ].

(** A [use] of a [use] whose own reference matches nothing, and a [use] of
    an element named after a member of [Object.prototype]; the definitions
    lie in [defs], which the traversal passes. *)
Definition useOfDanglingUse : Node :=
  document [ Element "defs" []
               [Element "use" [("id", "u1"); ("href", "#missing")] []];
             Element "use" [("xlink:href", "#u1")] [] ].

Definition useOfProto : Node :=
  document [ Element "defs" [] [Element "__proto__" [("id", "p")] []];
             Element "use" [("href", "#p")] [] ].

Definition nestedSvgGroup : Node :=
  document [ Element "svg" []
               [ Element "g" [("id", "A")] [Element "circle" [] []];
                 Element "title" [] [] ];
             Element "rect" [] [] ].

Definition nestedSvgCircle : Node :=
  document [ Element "svg" []
               [ Element "circle" [] [];
                 Element "title" [] [] ];
             Element "rect" [] [] ].

End UseSamples.

(** * Properties *)

(** ** Results of [mapM] *)

Lemma mapM_pure {A B} (f : A -> result B) (g : A -> B) (xs : list A) :
  (forall x, In x xs -> f x = Ok (g x)) -> mapM f xs = Ok (map g xs).
Proof.
  induction xs as [|x xs IH]; intros H; cbn [mapM map]; [reflexivity|].
  rewrite (H x (or_introl eq_refl)). cbn [bind].
  rewrite IH by (intros; apply H; now right). reflexivity.
Qed.

Lemma mapM_throw_head {A B} (f : A -> result B) (x : A) (xs : list A) e :
  f x = Throw e -> mapM f (x :: xs) = Throw e.
Proof. intros H. cbn [mapM]. now rewrite H. Qed.

Lemma mapM_returns {A B} (f : A -> result B) (xs : list A) :
  (forall x, In x xs -> exists y, f x = Ok y) ->
  exists ys, mapM f xs = Ok ys /\ List.length ys = List.length xs.
Proof.
  induction xs as [|x xs IH]; intros H; cbn [mapM].
  - exists []. split; reflexivity.
  - destruct (H x (or_introl eq_refl)) as [y Hy]. rewrite Hy. cbn [bind].
    destruct IH as [ys [Hys Hlen]]; [intros; apply H; now right|].
    rewrite Hys. cbn [bind]. exists (y :: ys). split; [reflexivity|].
    cbn [List.length]. now rewrite Hlen.
Qed.

Lemma nth_error_map_seq {B} (g : nat -> B) (n k : nat) :
  (k < n)%nat -> nth_error (map g (seq 0 n)) k = Some (g k).
Proof.
  intros Hk. rewrite nth_error_map, nth_error_seq.
  destruct (Nat.ltb_spec k n); [reflexivity|lia].
Qed.

(** ** Arithmetic on finite numbers *)

Lemma ltb_Fin (a b : Qc) : ltb (Fin a) (Fin b) = true <-> (a < b)%Qc.
Proof.
  cbn [ltb]. destruct (Qclt_le_dec a b) as [H|H]; split; intros H'; try easy.
  exfalso. exact (Qcle_not_lt _ _ H H').
Qed.

(** ** Doubles

    What the properties below need of the arithmetic of doubles, from the
    specification of the primitive operations. *)

Section DoubleFacts.

Import PrimFloat FloatOps SpecFloat FloatAxioms Double.
Local Open Scope float_scope.

Lemma SFltb_irrefl (a : spec_float) : SFltb a a = false.
Proof.
  destruct a as [s|s| |s m e]; try destruct s; cbn; try reflexivity;
    rewrite Z.compare_refl, Pos.compare_cont_refl; reflexivity.
Qed.

Lemma SFcompare_finite_Lt (s1 s2 : bool) (m1 m2 : positive) (e1 e2 : Z) :
  SFcompare (S754_finite s1 m1 e1) (S754_finite s2 m2 e2) = Some Lt <->
  (s1 = true /\ s2 = false) \/
  (s1 = false /\ s2 = false /\ ((e1 < e2)%Z \/ (e1 = e2 /\ (m1 < m2)%positive))) \/
  (s1 = true /\ s2 = true /\ ((e2 < e1)%Z \/ (e1 = e2 /\ (m2 < m1)%positive))).
Proof.
  cbn [SFcompare]. change (Pos.compare_cont Eq m1 m2) with (Pos.compare m1 m2).
  destruct s1, s2; destruct (Z.compare_spec e1 e2);
    destruct (Pos.compare_spec m1 m2); cbn [CompOpp];
    split; try (intros [= ]); intros; try lia; (try (intuition (try discriminate; try lia)));
    try reflexivity.
Qed.

Lemma SFltb_trans (a b c : spec_float) :
  SFltb a b = true -> SFltb b c = true -> SFltb a c = true.
Proof.
  unfold SFltb.
  destruct a as [sa|sa| |sa ma ea], b as [sb|sb| |sb mb eb],
    c as [sc|sc| |sc mc ec];
    try destruct sa; try destruct sb; try destruct sc;
    cbn [SFcompare]; try discriminate; try reflexivity;
    change (Pos.compare_cont Eq) with Pos.compare;
    destruct (Z.compare_spec ea eb); try discriminate;
    destruct (Z.compare_spec eb ec); try discriminate;
    destruct (Z.compare_spec ea ec); try reflexivity; try lia;
    destruct (Pos.compare_spec ma mb); cbn [CompOpp]; try discriminate;
    destruct (Pos.compare_spec mb mc); cbn [CompOpp]; try discriminate;
    destruct (Pos.compare_spec ma mc); cbn [CompOpp]; try reflexivity; lia.
Qed.

Lemma ltb_trans (x y z : float) :
  (x <? y) = true -> (y <? z) = true -> (x <? z) = true.
Proof. rewrite !ltb_spec. apply SFltb_trans. Qed.

Lemma ltb_irrefl (x : float) : (x <? x) = false.
Proof. rewrite ltb_spec. apply SFltb_irrefl. Qed.

(** A finite double is a zero or has a mantissa. *)
Lemma isFinite_spec (x : float) :
  isFinite x = true ->
  (exists s, Prim2SF x = S754_zero s) \/
  (exists s m e, Prim2SF x = S754_finite s m e).
Proof.
  unfold isFinite, is_finite, is_nan, is_infinity.
  rewrite !eqb_spec, abs_spec. change (Prim2SF infinity) with (S754_infinity false).
  destruct (Prim2SF x) as [s|s| |s m e]; cbn.
  - intros _. left. now exists s.
  - rewrite orb_true_r. discriminate.
  - discriminate.
  - intros _. right. now exists s, m, e.
Qed.

Lemma not_isFinite_spec (x : float) :
  isFinite x = false ->
  Prim2SF x = S754_nan \/ exists s, Prim2SF x = S754_infinity s.
Proof.
  unfold isFinite, is_finite, is_nan, is_infinity.
  rewrite !eqb_spec, abs_spec. change (Prim2SF infinity) with (S754_infinity false).
  destruct (Prim2SF x) as [s|s| |s m e]; cbn.
  - discriminate.
  - intros _. right. now exists s.
  - intros _. now left.
  - rewrite Z.compare_refl, Pos.compare_cont_refl. destruct s; discriminate.
Qed.

Lemma isFinite_ltb_infinity (x : float) :
  isFinite x = true -> (x <? infinity) = true.
Proof.
  intros H. rewrite ltb_spec. change (Prim2SF infinity) with (S754_infinity false).
  destruct (isFinite_spec x H) as [[s ->]|[s [m [e ->]]]]; reflexivity.
Qed.

(** The difference of a finite double with itself is [+0]. *)
Lemma sub_self (x : float) : isFinite x = true -> x - x = 0.
Proof.
  intros H. apply Prim2SF_inj. rewrite sub_spec.
  change (Prim2SF 0) with (S754_zero false).
  destruct (isFinite_spec x H) as [[s ->]|[s [m [e ->]]]].
  - now destruct s.
  - unfold SF64sub, SFsub. now rewrite Z.sub_diag.
Qed.

Lemma digits2_pos_bounds (m : positive) :
  (2 ^ (Z.pos (digits2_pos m) - 1) <= Z.pos m < 2 ^ Z.pos (digits2_pos m))%Z.
Proof.
  induction m as [m IH|m IH|]; cbn [digits2_pos].
  - rewrite Pos2Z.inj_succ. replace (Z.succ (Z.pos (digits2_pos m)) - 1)%Z
      with (Z.succ (Z.pos (digits2_pos m) - 1)) by lia.
    rewrite !Z.pow_succ_r by lia. lia.
  - rewrite Pos2Z.inj_succ. replace (Z.succ (Z.pos (digits2_pos m)) - 1)%Z
      with (Z.succ (Z.pos (digits2_pos m) - 1)) by lia.
    rewrite !Z.pow_succ_r by lia. lia.
  - cbn. lia.
Qed.

Lemma shl_align_value (m : positive) (e e' : Z) :
  (e' <= e)%Z ->
  Z.pos (fst (shl_align m e e')) = (Z.pos m * 2 ^ (e - e'))%Z.
Proof.
  intros H. unfold shl_align. destruct (e' - e)%Z as [|d|d] eqn:E.
  - replace (e - e')%Z with 0%Z by lia. cbn [fst]. lia.
  - lia.
  - cbn [fst]. replace (e - e')%Z with (Z.pos d) by lia.
    change (Pos.iter xO m d) with (Zpower.shift_pos d m).
    rewrite Zpower.shift_pos_correct, Z.pow_pos_fold. lia.
Qed.

(** Of two doubles with a mantissa, the one with the greater exponent has
    the greater magnitude. *)
Lemma bounded_exponent_order (m1 m2 : positive) (e1 e2 : Z) :
  bounded prec emax m1 e1 = true ->
  bounded prec emax m2 e2 = true ->
  (e2 < e1)%Z ->
  (Z.pos m2 <= Z.pos m1 * 2 ^ (e1 - e2))%Z.
Proof.
  unfold bounded, canonical_mantissa, fexp, emin.
  intros H1 H2 He.
  apply andb_prop in H1 as [H1 _]. apply andb_prop in H2 as [H2 _].
  apply Z.eqb_eq in H1, H2. unfold prec, emax in *.
  pose proof (digits2_pos_bounds m1) as [L1 _].
  pose proof (digits2_pos_bounds m2) as [_ U2].
  assert (D1 : Z.pos (digits2_pos m1) = 53%Z) by lia.
  assert (D2 : (Z.pos (digits2_pos m2) <= 53)%Z) by lia.
  rewrite D1 in L1.
  assert (P : (2 ^ Z.pos (digits2_pos m2) <= 2 ^ 53)%Z)
    by (apply Z.pow_le_mono_r; lia).
  assert (Q : (2 ^ 1 <= 2 ^ (e1 - e2))%Z) by (apply Z.pow_le_mono_r; lia).
  change (2 ^ (53 - 1))%Z with 4503599627370496%Z in L1.
  change (2 ^ 53)%Z with 9007199254740992%Z in P.
  change (2 ^ 1)%Z with 2%Z in Q.
  nia.
Qed.

Lemma binary_round_aux_sign (sx : bool) (mx ex : Z) (lx : location)
    (s : bool) (m : positive) (e : Z) :
  binary_round_aux prec emax sx mx ex lx = S754_finite s m e -> s = sx.
Proof.
  unfold binary_round_aux.
  destruct (shr_fexp prec emax mx ex lx) as [mrs' e'].
  destruct (shr_fexp prec emax _ e' loc_Exact) as [mrs'' e''].
  destruct (shr_m mrs''); try discriminate.
  destruct (Z.leb e'' (emax - prec)); now intros [= ].
Qed.

Lemma binary_normalize_sign (mz ez : Z) (s : bool) (m : positive) (e : Z) :
  (0 <= mz)%Z ->
  binary_normalize prec emax mz ez false = S754_finite s m e -> s = false.
Proof.
  intros Hm. unfold binary_normalize, binary_round.
  destruct mz as [|p|p]; [discriminate| |lia].
  destruct (shl_align p ez _) as [mz' ez'].
  apply binary_round_aux_sign.
Qed.

(** The aligned mantissas of two doubles that are not in the order [a < b]. *)
Lemma aligned_difference (sa sb : bool) (ma mb : positive) (ea eb : Z) :
  bounded prec emax ma ea = true ->
  bounded prec emax mb eb = true ->
  SFltb (S754_finite sa ma ea) (S754_finite sb mb eb) = false ->
  (0 <= cond_Zopp sa (Z.pos (fst (shl_align ma ea (Z.min ea eb)))) -
        cond_Zopp sb (Z.pos (fst (shl_align mb eb (Z.min ea eb)))))%Z.
Proof.
  intros Ba Bb Hlt.
  rewrite !shl_align_value by lia.
  assert (Hn : SFcompare (S754_finite sa ma ea) (S754_finite sb mb eb) <> Some Lt).
  { unfold SFltb in Hlt. intros E. rewrite E in Hlt. discriminate. }
  rewrite SFcompare_finite_Lt in Hn.
  assert (Pa : (0 < 2 ^ (ea - Z.min ea eb))%Z) by (apply Z.pow_pos_nonneg; lia).
  assert (Pb : (0 < 2 ^ (eb - Z.min ea eb))%Z) by (apply Z.pow_pos_nonneg; lia).
  destruct sa, sb; cbn [cond_Zopp].
  - destruct (Z.lt_trichotomy ea eb) as [H|[H|H]].
    + pose proof (bounded_exponent_order mb ma eb ea Bb Ba H) as B.
      rewrite Z.min_l by lia. rewrite Z.sub_diag. change (2 ^ 0)%Z with 1%Z. lia.
    + subst eb. rewrite Z.min_id, Z.sub_diag. change (2 ^ 0)%Z with 1%Z. lia.
    + lia.
  - lia.
  - lia.
  - destruct (Z.lt_trichotomy ea eb) as [H|[H|H]].
    + lia.
    + subst eb. rewrite Z.min_id, Z.sub_diag. change (2 ^ 0)%Z with 1%Z. lia.
    + pose proof (bounded_exponent_order ma mb ea eb Ba Bb H) as B.
      rewrite Z.min_r by lia. rewrite Z.sub_diag. change (2 ^ 0)%Z with 1%Z. lia.
Qed.

(** A difference [a - b] of finite doubles that are not in the order
    [a < b] has no negative mantissa. *)
Lemma SFsub_sign (a b : spec_float) (s : bool) (m : positive) (e : Z) :
  valid_binary a = true -> valid_binary b = true ->
  SFltb a b = false ->
  a <> S754_nan -> (forall sa, a <> S754_infinity sa) ->
  b <> S754_nan -> (forall sb, b <> S754_infinity sb) ->
  SF64sub a b = S754_finite s m e -> s = false.
Proof.
  intros Va Vb Hlt Na Ia Nb Ib.
  destruct a as [sa|sa| |sa ma ea]; [|now destruct (Ia sa)|now destruct Na|];
    (destruct b as [sb|sb| |sb mb eb]; [|now destruct (Ib sb)|now destruct Nb|]);
    unfold SF64sub, SFsub.
  - destruct sa, sb; discriminate.
  - intros [= <- _ _]. destruct sb; [reflexivity|discriminate].
  - intros [= <- _ _]. destruct sa; [discriminate|reflexivity].
  - apply binary_normalize_sign. now apply aligned_difference.
Qed.

(** The normalizer's step on finite doubles: a position that is not below
    the minimum comes out as a double that is not below zero. *)
Lemma sub_nonneg (x m : float) :
  isFinite x = true -> isFinite m = true -> (x <? m) = false ->
  (0 <=? safeNumber (x - m)) = true.
Proof.
  intros Hx Hm Hlt. unfold safeNumber.
  destruct (isFinite (x - m)) eqn:Hr; [|reflexivity].
  rewrite leb_spec. change (Prim2SF 0) with (S754_zero false).
  destruct (isFinite_spec _ Hr) as [[s E]|[s [mr [er E]]]]; rewrite E;
    [reflexivity|].
  rewrite sub_spec in E. rewrite ltb_spec in Hlt.
  assert (s = false) as ->; [|reflexivity].
  apply (SFsub_sign (Prim2SF x) (Prim2SF m) s mr er);
    try apply Prim2SF_valid; try assumption.
  - destruct (isFinite_spec x Hx) as [[? ->]|[? [? [? ->]]]]; discriminate.
  - destruct (isFinite_spec x Hx) as [[? ->]|[? [? [? ->]]]]; discriminate.
  - destruct (isFinite_spec m Hm) as [[? ->]|[? [? [? ->]]]]; discriminate.
  - destruct (isFinite_spec m Hm) as [[? ->]|[? [? [? ->]]]]; discriminate.
Qed.

(** A count above [100] is not a count at or below [0]. *)
Lemma above_100_positive (nb : float) : (100 <? nb) = true -> (nb <=? 0) = false.
Proof.
  rewrite ltb_spec, leb_spec.
  change (Prim2SF 0) with (S754_zero false).
  change (Prim2SF 100) with (S754_finite false 7036874417766400 (-46)).
  destruct (Prim2SF nb) as [s|s| |s m e]; try destruct s; cbn; try discriminate;
    reflexivity.
Qed.

Lemma SFltb_negtrans (a v r : spec_float) :
  a <> S754_nan ->
  SFltb v r = true -> SFltb a r = true \/ SFltb v a = true.
Proof.
  unfold SFltb. intros Ha.
  destruct a as [sa|sa| |sa ma ea]; [| |contradiction|];
    destruct v as [sv|sv| |sv mv ev], r as [sr|sr| |sr mr er];
    try destruct sa; try destruct sv; try destruct sr;
    cbn [SFcompare]; try discriminate; auto;
    change (Pos.compare_cont Eq) with Pos.compare;
    intros H;
    destruct (Z.compare_spec ev er); try discriminate;
    destruct (Z.compare_spec ea er); auto;
    destruct (Z.compare_spec ev ea); auto; try lia;
    destruct (Pos.compare_spec mv mr); cbn [CompOpp] in *; try discriminate;
    destruct (Pos.compare_spec ma mr); cbn [CompOpp]; auto;
    destruct (Pos.compare_spec mv ma); cbn [CompOpp]; auto; lia.
Qed.

Lemma ltb_negtrans (a v r : float) :
  Prim2SF a <> S754_nan ->
  (v <? r) = true -> (a <? r) = true \/ (v <? a) = true.
Proof. rewrite !ltb_spec. apply SFltb_negtrans. Qed.

Lemma isFinite_not_nan (x : float) : isFinite x = true -> Prim2SF x <> S754_nan.
Proof.
  intros H. destruct (isFinite_spec x H) as [[? ->]|[? [? [? ->]]]]; discriminate.
Qed.

End DoubleFacts.

(** ** bezier.ts *)

Section BezierFacts.

Import PrimFloat Double Bezier BezierSpec.
Local Open Scope float_scope.

Lemma coordinate_present cps k i :
  (k < List.length cps)%nat -> coordinate cps k i = Ok (coordinateOr cps k i).
Proof.
  intros Hk. unfold coordinate, coordinateOr.
  destruct (nth_error cps k) as [p|] eqn:E.
  - rewrite (nth_error_nth _ _ _ E).
    destruct (nth_error p i) as [v|] eqn:Ei.
    + now rewrite (nth_error_nth _ _ _ Ei).
    + apply nth_error_None in Ei. now rewrite nth_overflow.
  - apply nth_error_None in E. lia.
Qed.

Lemma coordinate_missing cps k i :
  (List.length cps <= k)%nat -> coordinate cps k i = Throw TypeError.
Proof.
  intros Hk. unfold coordinate.
  apply nth_error_None in Hk. now rewrite Hk.
Qed.

Lemma coordinate_cases cps k i :
  coordinate cps k i = Throw TypeError \/ exists v, coordinate cps k i = Ok v.
Proof.
  destruct (Nat.lt_ge_cases k (List.length cps)).
  - right. eexists. now apply coordinate_present.
  - left. now apply coordinate_missing.
Qed.

Section Exponentiation.

Variable power : float -> float -> float.

(** The evaluator of a curve type. *)
Lemma getPoint_returns type cps :
  enoughControlPoints type cps -> forall section,
  exists p,
    match type with
    | cubic => getPointOfCubicCurve power cps section
    | quadratic => getPointOfQuadraticCurve power cps section
    end = Ok p.
Proof.
  destruct type; cbn [enoughControlPoints]; intros H section;
    unfold getPointOfCubicCurve, getPointOfQuadraticCurve; cbn [mapM seq];
    rewrite !coordinate_present by lia; cbn [bind]; eexists; reflexivity.
Qed.

Lemma getPoint_throws type cps :
  ~ enoughControlPoints type cps -> forall section,
  match type with
  | cubic => getPointOfCubicCurve power cps section
  | quadratic => getPointOfQuadraticCurve power cps section
  end = Throw TypeError.
Proof.
  destruct type; cbn [enoughControlPoints]; intros H section;
    unfold getPointOfCubicCurve, getPointOfQuadraticCurve; cbn [mapM seq].
  - destruct (coordinate_cases cps 0 0) as [E|[v E]]; rewrite E; cbn [bind];
      [reflexivity|].
    destruct (coordinate_cases cps 1 0) as [E1|[v1 E1]]; rewrite E1; cbn [bind];
      [reflexivity|].
    destruct (coordinate_cases cps 2 0) as [E2|[v2 E2]]; rewrite E2; cbn [bind];
      [reflexivity|].
    rewrite coordinate_missing by lia. reflexivity.
  - destruct (coordinate_cases cps 0 0) as [E|[v E]]; rewrite E; cbn [bind];
      [reflexivity|].
    destruct (coordinate_cases cps 1 0) as [E1|[v1 E1]]; rewrite E1; cbn [bind];
      [reflexivity|].
    rewrite coordinate_missing by lia. reflexivity.
Qed.

(** Past the test of the count, the call is one evaluation per sample. *)
Lemma curveToPoints_unfold type cps nb :
  (nb <=? 0) = false ->
  curveToPoints power type cps nb =
  mapM (fun index =>
          let section :=
            safeNumber (((100 / effectiveCount nb) * (ofNat index + 1)) / 100) in
          match type with
          | cubic => getPointOfCubicCurve power cps section
          | quadratic => getPointOfQuadraticCurve power cps section
          end)
       (seq 0 (sampleCount nb)).
Proof. intros H. unfold curveToPoints. now rewrite H. Qed.

(** The whole counts from 1 to 100, one by one. *)
Lemma wholeCount_upto_100 : forallb wholeCount (seq 1 100) = true.
Proof. vm_compute. reflexivity. Qed.

Lemma wholeCount_spec (m : nat) :
  (1 <= m <= 100)%nat ->
  (ofNat m <=? 0) = false /\ (100 <? ofNat m) = false /\
  toLength (ofNat m) = Z.of_nat m.
Proof.
  intros Hm. pose proof wholeCount_upto_100 as H.
  rewrite forallb_forall in H. specialize (H m).
  assert (Hin : In m (seq 1 100)) by (apply in_seq; lia).
  apply H in Hin. unfold wholeCount in Hin.
  apply andb_prop in Hin as [Hin H3]. apply andb_prop in Hin as [H1 H2].
  apply negb_true_iff in H1, H2. apply Z.eqb_eq in H3. auto.
Qed.

Lemma sampleCount_whole (m : nat) :
  (1 <= m <= 100)%nat -> effectiveCount (ofNat m) = ofNat m /\ sampleCount (ofNat m) = m.
Proof.
  intros Hm. destruct (wholeCount_spec m Hm) as (_ & H2 & H3).
  unfold sampleCount, effectiveCount. rewrite H2, H3. split; [reflexivity|lia].
Qed.

Lemma sampleCount_above_100 (nb : float) :
  (100 <? nb) = true -> effectiveCount nb = 100 /\ sampleCount nb = 100%nat.
Proof.
  intros H. unfold sampleCount, effectiveCount. rewrite H.
  split; [reflexivity|]. vm_compute. reflexivity.
Qed.

(** C2 (as amended).  The count is a number.  At or below zero,
    [curveToPoints] throws the invalid-sample-count error whatever the
    control points.  Above zero, or not a number, the count is clamped to at
    most 100 and its integer part is the number of samples: when it is zero
    (a count below 1, or [NaN]) the call returns the empty list, with or
    without control points; otherwise the call returns that many points
    when the control points that the type reads are there (three for a
    quadratic curve, four for a cubic one), and throws a TypeError when they
    are not.  The number of samples is 100 for every count above 100 and [m]
    for a whole count [m] from 1 to 100, that is [min(max(n,1),100)] for a
    whole [n > 0]. *)
Theorem curveToPoints_sampling_bounds (type : curveType)
    (controlPoints : list (list float)) (nbPoints : float) :
  ((nbPoints <=? 0) = true ->
   curveToPoints power type controlPoints nbPoints = Throw InvalidSampleCount) /\
  ((nbPoints <=? 0) = false -> enoughControlPoints type controlPoints ->
   exists pts, curveToPoints power type controlPoints nbPoints = Ok pts /\
               List.length pts = sampleCount nbPoints) /\
  ((nbPoints <=? 0) = false -> sampleCount nbPoints = 0%nat ->
   curveToPoints power type controlPoints nbPoints = Ok []) /\
  ((nbPoints <=? 0) = false -> sampleCount nbPoints <> 0%nat ->
   ~ enoughControlPoints type controlPoints ->
   curveToPoints power type controlPoints nbPoints = Throw TypeError) /\
  ((100 <? nbPoints) = true ->
   (nbPoints <=? 0) = false /\ sampleCount nbPoints = 100%nat) /\
  (forall m : nat, (1 <= m <= 100)%nat -> nbPoints = ofNat m ->
   (nbPoints <=? 0) = false /\ sampleCount nbPoints = m).
Proof.
  split; [|split; [|split; [|split; [|split]]]].
  - intros H. unfold curveToPoints. now rewrite H.
  - intros H Hcp. rewrite (curveToPoints_unfold _ _ _ H).
    match goal with |- context [mapM ?f ?l] =>
      destruct (mapM_returns f l) as [pts [Hpts Hlen]] end.
    + intros index _. apply (getPoint_returns type controlPoints Hcp).
    + exists pts. split; [exact Hpts|]. now rewrite Hlen, length_seq.
  - intros H H0. rewrite (curveToPoints_unfold _ _ _ H), H0. reflexivity.
  - intros H H0 Hcp. rewrite (curveToPoints_unfold _ _ _ H).
    destruct (sampleCount nbPoints) as [|n]; [contradiction|].
    cbn [seq]. apply mapM_throw_head.
    apply (getPoint_throws type controlPoints Hcp).
  - intros H. split; [now apply above_100_positive|].
    now apply sampleCount_above_100.
  - intros m Hm ->. split; [now apply wholeCount_spec|now apply sampleCount_whole].
Qed.

Lemma getPointOfCubicCurve_point (x0 y0 x1 y1 x2 y2 x3 y3 t : float) :
  getPointOfCubicCurve power [[x0; y0]; [x1; y1]; [x2; y2]; [x3; y3]] t =
  Ok (cubicPoint power x0 y0 x1 y1 x2 y2 x3 y3 t).
Proof. reflexivity. Qed.

Lemma getPointOfQuadraticCurve_point (x0 y0 x1 y1 x2 y2 t : float) :
  getPointOfQuadraticCurve power [[x0; y0]; [x1; y1]; [x2; y2]] t =
  Ok (quadraticPoint power x0 y0 x1 y1 x2 y2 t).
Proof. reflexivity. Qed.

(** The sections of the whole counts from 1 to 100, one by one. *)
Lemma nearParameter_upto_100 :
  forallb (fun m => forallb (nearParameter m) (seq 0 m)) (seq 1 100) = true.
Proof. vm_compute. reflexivity. Qed.

Lemma nearParameter_spec (m k : nat) :
  (1 <= m <= 100)%nat -> (k < m)%nat -> nearParameter m k = true.
Proof.
  intros Hm Hk. pose proof nearParameter_upto_100 as H.
  rewrite forallb_forall in H.
  assert (Hin : In m (seq 1 100)) by (apply in_seq; lia).
  apply H in Hin. rewrite forallb_forall in Hin. apply Hin, in_seq. lia.
Qed.

Lemma curveToPoints_whole type cps (m : nat) :
  (1 <= m <= 100)%nat ->
  curveToPoints power type cps (ofNat m) =
  mapM (fun index =>
          match type with
          | cubic => getPointOfCubicCurve power cps (section m index)
          | quadratic => getPointOfQuadraticCurve power cps (section m index)
          end)
       (seq 0 m).
Proof.
  intros Hm. destruct (wholeCount_spec m Hm) as (H1 & _ & _).
  destruct (sampleCount_whole m Hm) as [He Hs].
  rewrite (curveToPoints_unfold _ _ _ H1), He, Hs. reflexivity.
Qed.

(** C3 (as amended).  For a cubic curve given by four control points and a
    quadratic curve given by three, whatever their coordinates, and a whole
    count [m] from 1 to 100 (a count above 100 is treated as 100): the call
    returns [m] points, and point [k], for [k] in [0 .. m-1], is the Bezier
    polynomial evaluated in doubles at the section the code computes,
    [((100 / m) * (k + 1)) / 100].  That section is [(k + 1) / m] up to
    rounding: it is above 0, so that the sample at [t = 0] is not among the
    points, at most two doubles away from [(k + 1) / m], and at most the
    double that follows 1; the last section is not 1 for the counts 11, 22,
    39, 44, 78, 83, 88, 91 and 97.  The cubic [[0,0],[0,10],[10,10],[10,0]]
    at [n = 1] yields the single point [[10,0]], the exponentiation being
    exact at 0 and 1.  All of it holds whatever the engine's rounding of
    [**] is. *)
Theorem curveToPoints_samples :
  (forall x0 y0 x1 y1 x2 y2 x3 y3 (m : nat), (1 <= m <= 100)%nat ->
   exists pts,
     curveToPoints power cubic [[x0; y0]; [x1; y1]; [x2; y2]; [x3; y3]] (ofNat m) =
       Ok pts /\
     List.length pts = m /\
     forall k, (k < m)%nat ->
       nth_error pts k =
         Some (cubicPoint power x0 y0 x1 y1 x2 y2 x3 y3 (section m k)) /\
       nearParameter m k = true) /\
  (forall x0 y0 x1 y1 x2 y2 (m : nat), (1 <= m <= 100)%nat ->
   exists pts,
     curveToPoints power quadratic [[x0; y0]; [x1; y1]; [x2; y2]] (ofNat m) = Ok pts /\
     List.length pts = m /\
     forall k, (k < m)%nat ->
       nth_error pts k = Some (quadraticPoint power x0 y0 x1 y1 x2 y2 (section m k)) /\
       nearParameter m k = true) /\
  (forall type controlPoints nbPoints, (100 <? nbPoints) = true ->
   curveToPoints power type controlPoints nbPoints =
   curveToPoints power type controlPoints 100) /\
  overshooting = [11; 22; 39; 44; 78; 83; 88; 91; 97]%nat /\
  (exactAtEnds power ->
   curveToPoints power cubic exampleCubic 1 = Ok [[10; 0]]).
Proof.
  split; [|split; [|split; [|split]]].
  - intros x0 y0 x1 y1 x2 y2 x3 y3 m Hm.
    rewrite (curveToPoints_whole cubic _ m Hm).
    rewrite (mapM_pure _
      (fun index => cubicPoint power x0 y0 x1 y1 x2 y2 x3 y3 (section m index)))
      by (intros; apply getPointOfCubicCurve_point).
    eexists. split; [reflexivity|]. split; [now rewrite length_map, length_seq|].
    intros k Hk. split; [now rewrite nth_error_map_seq|].
    now apply nearParameter_spec.
  - intros x0 y0 x1 y1 x2 y2 m Hm.
    rewrite (curveToPoints_whole quadratic _ m Hm).
    rewrite (mapM_pure _
      (fun index => quadraticPoint power x0 y0 x1 y1 x2 y2 (section m index)))
      by (intros; apply getPointOfQuadraticCurve_point).
    eexists. split; [reflexivity|]. split; [now rewrite length_map, length_seq|].
    intros k Hk. split; [now rewrite nth_error_map_seq|].
    now apply nearParameter_spec.
  - intros type cps nb H. unfold curveToPoints.
    now rewrite (above_100_positive nb H), H.
  - vm_compute. reflexivity.
  - intros (H02 & H03 & H12 & H13).
    change (1 : float) with (ofNat 1) at 1.
    rewrite (curveToPoints_whole cubic _ 1%nat) by lia.
    cbn [seq mapM]. unfold exampleCubic.
    rewrite getPointOfCubicCurve_point. cbn [bind].
    replace (section 1 0) with (1 : float) by (vm_compute; reflexivity).
    unfold cubicPoint, cubicBezier.
    replace (1 - 1) with (0 : float) by (vm_compute; reflexivity).
    rewrite H02, H03, H12, H13. vm_compute. reflexivity.
Qed.

End Exponentiation.

(** A quadratic curve asked for 250 points gives 100. *)
Lemma curveToPoints_sampling_bounds_witness :
  exists pts,
    curveToPoints productPower quadratic exampleQuadratic 250 = Ok pts /\
    List.length pts = 100%nat.
Proof.
  destruct (proj1 (proj2 (proj2 (proj2 (proj2
              (curveToPoints_sampling_bounds productPower quadratic exampleQuadratic 250)))))
              eq_refl) as [Hpos Hcount].
  destruct (proj1 (proj2
              (curveToPoints_sampling_bounds productPower quadratic exampleQuadratic 250))
              Hpos ltac:(cbn; lia)) as [pts [Hpts Hlen]].
  exists pts. split; [exact Hpts|]. now rewrite Hlen.
Defined.

(** C2 as stated fails: a cubic curve without control points, asked for one
    point, throws a TypeError and returns no list of one point; and a count
    of one half, which is above zero, gives no point at all, where
    [min(max(n,1),100)] is one. *)
Lemma curveToPoints_too_few_control_points :
  (0 <? 1) = true /\
  curveToPoints productPower cubic [] 1 = Throw TypeError /\
  (0 <? 0.5) = true /\
  curveToPoints productPower cubic exampleCubic 0.5 = Ok [] /\
  curveToPoints productPower cubic [] 0.5 = Ok [].
Proof. repeat split. Qed.

(** The quadratic [[0,0],[5,10],[10,0]] at [n = 2]: two points, the second
    one [[10,0]]; and the cubic of the example at [n = 1], the powers being
    products. *)
Lemma curveToPoints_samples_witness :
  (exists pts,
     curveToPoints productPower quadratic exampleQuadratic (ofNat 2) = Ok pts /\
     List.length pts = 2%nat /\
     nth_error pts 1 = Some [10; 0] /\
     nearParameter 2 1 = true) /\
  exactAtEnds productPower /\
  curveToPoints productPower cubic exampleCubic 1 = Ok [[10; 0]].
Proof.
  assert (Hends : exactAtEnds productPower) by (repeat split).
  split; [|split; [exact Hends|]].
  - destruct (proj1 (proj2 (curveToPoints_samples productPower))
                0 0 5 10 10 0 2%nat ltac:(lia)) as [pts [Hpts [Hlen Hk]]].
    exists pts. split; [exact Hpts|]. split; [exact Hlen|].
    destruct (Hk 1%nat ltac:(lia)) as [Hnth Hnear].
    split; [|exact Hnear]. rewrite Hnth. vm_compute. reflexivity.
  - exact (proj2 (proj2 (proj2 (proj2 (curveToPoints_samples productPower))))
             Hends).
Defined.

(** C3 as stated fails: at [n = 11] the last section is the double that
    follows 1, where [(k + 1) / n] is [11 / 11 = 1]; the last point of the
    cubic [[0,0],[0,10],[10,10],[10,0]] is then not its evaluation at
    [t = 1], which is [[10,0]], but a point below the axis (the powers
    here are products, which at these arguments are the doubles nearest to
    the exact powers). *)
Lemma curveToPoints_last_section_past_one :
  parameter 11 10 = 1 /\
  section 11 10 = next_up 1 /\
  (1 <? section 11 10) = true /\
  cubicPoint productPower 0 0 0 10 10 10 10 0 (parameter 11 10) = [10; 0] /\
  exists pts p,
    curveToPoints productPower cubic exampleCubic (ofNat 11) = Ok pts /\
    nth_error pts 10 = Some p /\
    (nth 1 p 0 <? 0) = true /\
    p <> [10; 0].
Proof.
  split; [vm_compute; reflexivity|]. split; [vm_compute; reflexivity|].
  split; [vm_compute; reflexivity|]. split; [vm_compute; reflexivity|].
  eexists. eexists. split; [vm_compute; reflexivity|].
  split; [vm_compute; reflexivity|]. split; [vm_compute; reflexivity|].
  intros H. apply (f_equal (fun p => nth 1 p 0 <? 0)) in H.
  vm_compute in H. discriminate H.
Qed.

End BezierFacts.

(** ** TreeWalker *)

Import Dom TreeWalkerSpec.
Local Open Scope string_scope.
Local Open Scope list_scope.

Lemma path_eqb_eq (p q : Dom.path) : path_eqb p q = true <-> p = q.
Proof.
  unfold path_eqb. destruct (list_eq_dec Nat.eq_dec p q); split; intros;
    congruence.
Qed.

Lemma within_child_not_root (tw : TreeWalker) (p : Dom.path) (j : nat) :
  within tw p -> path_eqb (j :: p) (root tw) = false.
Proof.
  intros [inner ->]. unfold path_eqb.
  destruct (list_eq_dec Nat.eq_dec (j :: inner ++ root tw) (root tw)) as [E|];
    [|reflexivity].
  apply (f_equal (@List.length nat)) in E. cbn [List.length] in E.
  rewrite length_app in E. lia.
Qed.

Lemma within_parent (tw : TreeWalker) (i : nat) (parent : Dom.path) :
  within tw (i :: parent) -> path_eqb (i :: parent) (root tw) = false ->
  within tw parent.
Proof.
  intros [inner E] Hne. destruct inner as [|j inner].
  - cbn [app] in E. rewrite <- E in Hne.
    assert (H : path_eqb (i :: parent) (i :: parent) = true)
      by now apply path_eqb_eq.
    congruence.
  - cbn [app] in E. injection E as _ E. now exists inner.
Qed.

Lemma childrenAt_nth (top : Node) (parent : Dom.path) (j : nat) :
  nodeAt top (j :: parent) = nth_error (childrenAt top parent) j.
Proof.
  cbn [nodeAt]. unfold childrenAt. destruct (nodeAt top parent); [reflexivity|].
  now destruct j.
Qed.

Lemma skipn_after (A : Type) (before : list A) (x : A) (rest : list A) :
  skipn (S (List.length before)) (before ++ x :: rest) = rest.
Proof. induction before as [|b before IH]; [reflexivity|exact IH]. Qed.

Lemma nth_error_after (A : Type) (before : list A) (x : A) (skipped : list A)
    (a : A) (rest : list A) :
  nth_error (before ++ x :: skipped ++ a :: rest)
            (S (List.length before) + List.length skipped) = Some a.
Proof.
  rewrite nth_error_app2 by lia.
  replace (S (List.length before) + List.length skipped - List.length before)%nat
    with (S (List.length skipped)) by lia.
  cbn [nth_error]. rewrite nth_error_app2 by lia.
  now rewrite Nat.sub_diag.
Qed.

Lemma scanSiblings_skip (tw : TreeWalker) (rejected : list Node) (a : Node)
    (rest : list Node) (j : nat) :
  Forall (fun r => accepts tw r = false) rejected ->
  accepts tw a = true ->
  scanSiblings tw (rejected ++ a :: rest) j = Some (j + List.length rejected)%nat.
Proof.
  intros Hrej Ha. revert j.
  induction Hrej as [|r rejected Hr _ IH]; intros j;
    cbn [app scanSiblings List.length].
  - rewrite Ha. f_equal. lia.
  - rewrite Hr, IH. f_equal. lia.
Qed.

Lemma scanFollowing_skip (tw : TreeWalker) (parent : Dom.path)
    (up : option Dom.path) (rejected : list Node) (a : Node) (rest : list Node)
    (j : nat) :
  within tw parent ->
  Forall (fun r => accepts tw r = false) rejected ->
  accepts tw a = true ->
  scanFollowing tw parent up (rejected ++ a :: rest) j =
  Some ((j + List.length rejected)%nat :: parent).
Proof.
  intros Hin Hrej Ha. revert j.
  induction Hrej as [|r rejected Hr _ IH]; intros j;
    cbn [app scanFollowing List.length].
  - rewrite Ha. do 2 f_equal. lia.
  - rewrite Hr, (within_child_not_root tw parent j Hin), IH. do 2 f_equal. lia.
Qed.

(** After a node, [nextSibling] passes the rejected siblings and stops at the
    first accepted one. *)
Lemma nextSibling_skips (tw : TreeWalker) (i : nat) (parent : Dom.path)
    (before : list Node) (cur : Node) (rejected : list Node) (a : Node)
    (rest : list Node) :
  currentNode tw = i :: parent ->
  within tw parent ->
  childrenAt (top tw) parent = before ++ cur :: rejected ++ a :: rest ->
  List.length before = i ->
  Forall (fun r => accepts tw r = false) rejected ->
  accepts tw a = true ->
  nextSibling tw =
  (setCurrentNode tw ((S i + List.length rejected)%nat :: parent), Some a).
Proof.
  intros Hcur Hin Hch Hi Hrej Ha. unfold nextSibling.
  rewrite Hcur, (within_child_not_root tw parent i Hin).
  cbn [traverseSiblings]. rewrite Hch. subst i. rewrite skipn_after.
  rewrite (scanSiblings_skip tw rejected a rest _ Hrej Ha).
  cbn [moveTo]. rewrite childrenAt_nth, Hch, nth_error_after. reflexivity.
Qed.

(** From a node, [nextNode] passes the rejected first children and stops at
    the first accepted child. *)
Lemma nextNode_skips_children (tw : TreeWalker) (rejected : list Node)
    (a : Node) (rest : list Node) :
  within tw (currentNode tw) ->
  childrenAt (top tw) (currentNode tw) = rejected ++ a :: rest ->
  Forall (fun r => accepts tw r = false) rejected ->
  accepts tw a = true ->
  nextNode tw =
  (setCurrentNode tw (List.length rejected :: currentNode tw), Some a).
Proof.
  intros Hin Hch Hrej Ha. unfold nextNode. rewrite Hch.
  assert (Hnode : nodeAt (top tw) (List.length rejected :: currentNode tw) = Some a).
  { rewrite childrenAt_nth, Hch, nth_error_app2 by lia.
    now rewrite Nat.sub_diag. }
  destruct rejected as [|r rejected]; cbn [app List.length] in *.
  - rewrite Ha. cbn [moveTo]. now rewrite Hnode.
  - inversion Hrej as [|? ? Hr Hrej']; subst. rewrite Hr.
    cbn [following]. rewrite (within_child_not_root tw _ 0 Hin), Hch.
    cbn [skipn].
    rewrite (scanFollowing_skip tw _ _ rejected a rest 1 Hin Hrej' Ha).
    cbn [moveTo].
    replace (1 + List.length rejected)%nat with (S (List.length rejected)) by lia.
    now rewrite Hnode.
Qed.

(** From a node without children, [nextNode] passes the rejected siblings
    that follow and stops at the first accepted one. *)
Lemma nextNode_skips_siblings (tw : TreeWalker) (i : nat) (parent : Dom.path)
    (before : list Node) (cur : Node) (rejected : list Node) (a : Node)
    (rest : list Node) :
  currentNode tw = i :: parent ->
  within tw parent ->
  childrenAt (top tw) (i :: parent) = [] ->
  childrenAt (top tw) parent = before ++ cur :: rejected ++ a :: rest ->
  List.length before = i ->
  Forall (fun r => accepts tw r = false) rejected ->
  accepts tw a = true ->
  nextNode tw =
  (setCurrentNode tw ((S i + List.length rejected)%nat :: parent), Some a).
Proof.
  intros Hcur Hin Hleaf Hch Hi Hrej Ha. unfold nextNode.
  rewrite Hcur, Hleaf. cbn [following].
  rewrite (within_child_not_root tw parent i Hin), Hch. subst i.
  rewrite skipn_after.
  rewrite (scanFollowing_skip tw parent _ rejected a rest _ Hin Hrej Ha).
  cbn [moveTo]. rewrite childrenAt_nth, Hch, nth_error_after. reflexivity.
Qed.

(** What a step returns is a node of the tree that the filter accepts,
    inside the root. *)

Lemma scanFollowing_accepted (tw : TreeWalker) (parent : Dom.path)
    (up : option Dom.path) (siblings : list Node) (j : nat) (p : Dom.path) :
  siblings = skipn j (childrenAt (top tw) parent) ->
  (up = Some p -> acceptedAt tw p) ->
  scanFollowing tw parent up siblings j = Some p -> acceptedAt tw p.
Proof.
  revert j. induction siblings as [|s rest IH]; intros j Hs Hup;
    cbn [scanFollowing].
  - exact Hup.
  - assert (Hj : nth_error (childrenAt (top tw) parent) j = Some s).
    { rewrite <- (Nat.add_0_r j), <- nth_error_skipn, <- Hs. reflexivity. }
    destruct (accepts tw s) eqn:Ha.
    + intros [= <-]. exists s. split; [now rewrite childrenAt_nth|exact Ha].
    + destruct (path_eqb (j :: parent) (root tw)); [discriminate|].
      apply IH; [|exact Hup].
      rewrite <- (skipn_skipn 1 j). rewrite <- Hs. reflexivity.
Qed.

Lemma following_accepted (tw : TreeWalker) (temporary p : Dom.path) :
  following tw temporary = Some p -> acceptedAt tw p.
Proof.
  induction temporary as [|i parent IH]; cbn [following].
  - destruct (path_eqb [] (root tw)); discriminate.
  - destruct (path_eqb (i :: parent) (root tw)); [discriminate|].
    apply scanFollowing_accepted; [reflexivity|exact IH].
Qed.

Lemma scanFollowing_within (tw : TreeWalker) (parent : Dom.path)
    (up : option Dom.path) (siblings : list Node) (j : nat) (p : Dom.path) :
  within tw parent ->
  (up = Some p -> within tw p) ->
  scanFollowing tw parent up siblings j = Some p -> within tw p.
Proof.
  intros Hin Hup. revert j.
  induction siblings as [|s rest IH]; intros j; cbn [scanFollowing].
  - exact Hup.
  - destruct (accepts tw s).
    + intros [= <-]. destruct Hin as [inner ->]. now exists (j :: inner).
    + destruct (path_eqb (j :: parent) (root tw)); [discriminate|]. apply IH.
Qed.

Lemma following_within (tw : TreeWalker) (temporary p : Dom.path) :
  within tw temporary -> following tw temporary = Some p -> within tw p.
Proof.
  induction temporary as [|i parent IH]; intros Hin; cbn [following].
  - destruct (path_eqb [] (root tw)); discriminate.
  - destruct (path_eqb (i :: parent) (root tw)) eqn:E; [discriminate|].
    pose proof (within_parent tw i parent Hin E) as Hp.
    apply scanFollowing_within; [exact Hp|]. intros Hup. now apply IH.
Qed.

Lemma moveTo_accepted (tw : TreeWalker) (target : option Dom.path) (n : Node) :
  (forall p, target = Some p -> acceptedAt tw p) ->
  snd (moveTo tw target) = Some n -> accepts tw n = true.
Proof.
  intros H. destruct target as [p|]; cbn [moveTo snd]; [|discriminate].
  destruct (H p eq_refl) as [m [Hm Ha]]. rewrite Hm. now intros [= <-].
Qed.

(** The node a step returns is the node under the cursor afterwards: the
    walker that [walk] dispatches on reads the node it was dispatched for. *)
Lemma moveTo_current (tw : TreeWalker) (target : option Dom.path) (n : Node) :
  snd (moveTo tw target) = Some n -> current (fst (moveTo tw target)) = n.
Proof.
  destruct target as [p|]; cbn [moveTo snd fst]; [|discriminate].
  intros H. unfold current. cbn [setCurrentNode top currentNode]. now rewrite H.
Qed.

Lemma nextNode_accepted (tw : TreeWalker) (n : Node) :
  snd (nextNode tw) = Some n -> accepts tw n = true.
Proof.
  unfold nextNode. apply moveTo_accepted. intros p.
  destruct (childrenAt (top tw) (currentNode tw)) as [|child rest] eqn:Hch.
  - apply following_accepted.
  - destruct (accepts tw child) eqn:Ha.
    + intros [= <-]. exists child. split; [|exact Ha].
      now rewrite childrenAt_nth, Hch.
    + apply following_accepted.
Qed.

Lemma nextNode_current (tw : TreeWalker) (n : Node) :
  snd (nextNode tw) = Some n -> current (fst (nextNode tw)) = n.
Proof. unfold nextNode. apply moveTo_current. Qed.

(** The cursor stays in the subtree of the root. *)
Lemma nextNode_within (tw : TreeWalker) :
  within tw (currentNode tw) ->
  within tw (currentNode (fst (nextNode tw))).
Proof.
  intros Hin. unfold nextNode.
  assert (Hf : forall t p, within tw t -> following tw t = Some p ->
                           within tw (currentNode (fst (moveTo tw (Some p))))).
  { intros t p Ht Hp. cbn [moveTo fst setCurrentNode currentNode].
    now apply (following_within tw t). }
  assert (Hchild : within tw (0%nat :: currentNode tw)).
  { destruct Hin as [inner E]. exists (0%nat :: inner). now rewrite E at 1. }
  destruct (childrenAt (top tw) (currentNode tw)) as [|child rest].
  - destruct (following tw (currentNode tw)) as [p|] eqn:Hp;
      [now apply (Hf (currentNode tw))|exact Hin].
  - destruct (accepts tw child); [exact Hchild|].
    destruct (following tw (0%nat :: currentNode tw)) as [p|] eqn:Hp;
      [now apply (Hf (0%nat :: currentNode tw))|exact Hin].
Qed.

Lemma scanSiblings_accepted (tw : TreeWalker) (parent : Dom.path)
    (siblings : list Node) (j k : nat) :
  siblings = skipn j (childrenAt (top tw) parent) ->
  scanSiblings tw siblings j = Some k -> acceptedAt tw (k :: parent).
Proof.
  revert j. induction siblings as [|s rest IH]; intros j Hs;
    cbn [scanSiblings].
  - discriminate.
  - assert (Hj : nth_error (childrenAt (top tw) parent) j = Some s).
    { rewrite <- (Nat.add_0_r j), <- nth_error_skipn, <- Hs. reflexivity. }
    destruct (accepts tw s) eqn:Ha.
    + intros [= <-]. exists s. split; [now rewrite childrenAt_nth|exact Ha].
    + apply IH. rewrite <- (skipn_skipn 1 j). rewrite <- Hs. reflexivity.
Qed.

Lemma traverseSiblings_accepted (tw : TreeWalker) (node p : Dom.path) :
  traverseSiblings tw node = Some p -> acceptedAt tw p.
Proof.
  induction node as [|i parent IH]; cbn [traverseSiblings]; [discriminate|].
  destruct (scanSiblings tw (skipn (S i) (childrenAt (top tw) parent)) (S i))
    as [k|] eqn:Hk.
  - intros [= <-]. eapply scanSiblings_accepted; [reflexivity|exact Hk].
  - destruct (path_eqb parent (root tw)); [discriminate|].
    destruct (nodeAt (top tw) parent) as [pn|]; [|discriminate].
    destruct (accepts tw pn); [discriminate|exact IH].
Qed.

Lemma nextSibling_accepted (tw : TreeWalker) (n : Node) :
  snd (nextSibling tw) = Some n -> accepts tw n = true.
Proof.
  unfold nextSibling.
  destruct (path_eqb (currentNode tw) (root tw)); [discriminate|].
  apply moveTo_accepted. intros p. apply traverseSiblings_accepted.
Qed.

Lemma traverseSiblings_within (tw : TreeWalker) (node p : Dom.path) :
  within tw node -> path_eqb node (root tw) = false ->
  traverseSiblings tw node = Some p -> within tw p.
Proof.
  induction node as [|i parent IH]; intros Hin Hne; cbn [traverseSiblings];
    [discriminate|].
  pose proof (within_parent tw i parent Hin Hne) as Hp.
  destruct (scanSiblings tw (skipn (S i) (childrenAt (top tw) parent)) (S i))
    as [k|].
  - intros [= <-]. destruct Hp as [inner ->]. now exists (k :: inner).
  - destruct (path_eqb parent (root tw)) eqn:E; [discriminate|].
    destruct (nodeAt (top tw) parent) as [pn|]; [|discriminate].
    destruct (accepts tw pn); [discriminate|]. now apply IH.
Qed.

(** The cursor stays in the subtree of the root. *)
Lemma nextSibling_within (tw : TreeWalker) :
  within tw (currentNode tw) ->
  within tw (currentNode (fst (nextSibling tw))).
Proof.
  intros Hin. unfold nextSibling.
  destruct (path_eqb (currentNode tw) (root tw)) eqn:E; [exact Hin|].
  destruct (traverseSiblings tw (currentNode tw)) as [p|] eqn:Hp;
    cbn [moveTo fst setCurrentNode currentNode]; [|exact Hin].
  now apply (traverseSiblings_within tw (currentNode tw)).
Qed.

Lemma nextSibling_current (tw : TreeWalker) (n : Node) :
  snd (nextSibling tw) = Some n -> current (fst (nextSibling tw)) = n.
Proof.
  unfold nextSibling.
  destruct (path_eqb (currentNode tw) (root tw)); [discriminate|].
  apply moveTo_current.
Qed.

(** ** The Position Normalizer *)

Import Walker NormalizerSpec.

Lemma fold_minPointStep (es : list RawElement.t) (ax ay : number) :
  fold_left minPointStep es (ax, ay) =
  (fold_left minStep (map RawElement.x es) ax,
   fold_left minStep (map RawElement.y es) ay).
Proof.
  revert ax ay. induction es as [|e es IH]; intros ax ay; [reflexivity|].
  cbn [fold_left map]. unfold minPointStep at 2. cbn [fst snd].
  unfold minStep at 2 4.
  destruct (ltb (RawElement.x e) ax); cbn [fst snd];
    destruct (ltb (RawElement.y e) ay); apply IH.
Qed.

Lemma fold_minStep_finite (vs : list number) (a : Qc) :
  forallb isFinite vs = true ->
  exists r, fold_left minStep vs (Fin a) = Fin r /\
            (r <= a)%Qc /\
            (r = a \/ In (Fin r) vs) /\
            forall v, In v vs -> leq (Fin r) v.
Proof.
  revert a. induction vs as [|v vs IH]; intros a Hfin.
  - exists a. repeat split; [apply Qcle_refl | now left | intros v []].
  - cbn [forallb] in Hfin. apply andb_prop in Hfin as [Hv Hvs].
    destruct v as [q| | |]; try discriminate. cbn [fold_left].
    unfold minStep at 2. destruct (ltb (Fin q) (Fin a)) eqn:E.
    + apply ltb_Fin in E.
      destruct (IH q Hvs) as [r [Hr [Hle [Hin Hall]]]].
      exists r. split; [exact Hr|]. split.
      { apply Qcle_trans with q; [exact Hle|now apply Qclt_le_weak]. }
      split.
      { right. destruct Hin as [->|Hin]; [now left|now right]. }
      intros w [<-|Hw]; [exact Hle|now apply Hall].
    + assert (Hqa : (a <= q)%Qc).
      { cbn [ltb] in E. destruct (Qclt_le_dec q a); [discriminate|assumption]. }
      destruct (IH a Hvs) as [r [Hr [Hle [Hin Hall]]]].
      exists r. split; [exact Hr|]. split; [exact Hle|]. split.
      { destruct Hin as [->|Hin]; [now left|right; now right]. }
      intros w [<-|Hw]; [cbn; now apply Qcle_trans with a|now apply Hall].
Qed.

(** The reduction seeded with [Infinity] finds the minimum of a non-empty
    list of finite numbers. *)
Lemma fold_minStep_minimum (vs : list number) :
  vs <> [] -> forallb isFinite vs = true ->
  exists r, fold_left minStep vs PosInfinity = Fin r /\ isMinimum (Fin r) vs.
Proof.
  destruct vs as [|v vs]; [congruence|]. intros _ Hfin.
  cbn [forallb] in Hfin. apply andb_prop in Hfin as [Hv Hvs].
  destruct v as [q| | |]; try discriminate.
  cbn [fold_left]. change (minStep PosInfinity (Fin q)) with (Fin q).
  destruct (fold_minStep_finite vs q Hvs) as [r [Hr [Hle [Hin Hall]]]].
  exists r. split; [exact Hr|]. split.
  - destruct Hin as [->|Hin]; [now left|now right].
  - intros w [<-|Hw]; [exact Hle|now apply Hall].
Qed.

Lemma isMinimum_unique (m m' : number) (vs : list number) :
  isMinimum m vs -> isMinimum m' vs -> m = m'.
Proof.
  intros [Hin Hall] [Hin' Hall'].
  pose proof (Hall _ Hin') as H1. pose proof (Hall' _ Hin) as H2.
  destruct m as [p| | |], m' as [q| | |]; cbn in H1, H2; try contradiction.
  f_equal. now apply Qcle_antisym.
Qed.

Lemma wellFormed_x (e : RawElement.t) :
  wellFormed e = true -> exists q, RawElement.x e = Fin q.
Proof.
  unfold wellFormed. intros H. apply andb_prop in H as [H _].
  apply andb_prop in H as [H _]. destruct (RawElement.x e); try discriminate.
  now eexists.
Qed.

Lemma wellFormed_y (e : RawElement.t) :
  wellFormed e = true -> exists q, RawElement.y e = Fin q.
Proof.
  unfold wellFormed. intros H. apply andb_prop in H as [H _].
  apply andb_prop in H as [_ H]. destruct (RawElement.y e); try discriminate.
  now eexists.
Qed.

Lemma forallb_map_isFinite (f : RawElement.t -> number) (es : list RawElement.t) :
  (forall e, In e es -> isFinite (f e) = true) ->
  forallb isFinite (map f es) = true.
Proof.
  intros H. apply forallb_forall. intros v Hv.
  apply in_map_iff in Hv as [e [<- He]]. now apply H.
Qed.

(** A point that passes [isFinitePair] is a pair of finite numbers. *)
Ltac finite_pair p H :=
  destruct p as [|[?| | |] [|[?| | |] [|? ?]]]; try discriminate H.

Lemma normalize_element (mx my : Qc) (e : RawElement.t) :
  wellFormed e = true ->
  {| RawElement.type := RawElement.type e;
     RawElement.width := RawElement.width e;
     RawElement.height := RawElement.height e;
     RawElement.points :=
       map (fun p =>
              [ safeNumber
                  (coord p 0 - safeNumber (RawElement.x e - Fin mx) - Fin mx)%num;
                safeNumber
                  (coord p 1 - safeNumber (RawElement.y e - Fin my) - Fin my)%num ])
           (RawElement.points e);
     RawElement.x := safeNumber (RawElement.x e - Fin mx)%num;
     RawElement.y := safeNumber (RawElement.y e - Fin my)%num |} =
  rebase (Fin mx) (Fin my) e.
Proof.
  intros Hwf. destruct (wellFormed_x e Hwf) as [ex Hx].
  destruct (wellFormed_y e Hwf) as [ey Hy].
  unfold rebase, relativePoints. rewrite Hx, Hy.
  cbn [sub add neg safeNumber isFinite].
  f_equal. apply map_ext_in. intros p Hp.
  unfold wellFormed in Hwf. apply andb_prop in Hwf as [_ Hps].
  rewrite forallb_forall in Hps. specialize (Hps p Hp).
  finite_pair p Hps.
  cbn [coord nth sub add neg safeNumber isFinite].
  f_equal; [|f_equal]; f_equal; ring.
Qed.

Lemma calculateElementsPositions_rebase (elements : list RawElement.t) :
  elements <> [] ->
  forallb wellFormed elements = true ->
  exists mx my,
    isMinimum (Fin mx) (map RawElement.x elements) /\
    isMinimum (Fin my) (map RawElement.y elements) /\
    calculateElementsPositions elements = map (rebase (Fin mx) (Fin my)) elements.
Proof.
  intros Hne Hwf. rewrite forallb_forall in Hwf.
  destruct (fold_minStep_minimum (map RawElement.x elements)) as [mx [Hmx Hminx]].
  { destruct elements; [congruence|discriminate]. }
  { apply forallb_map_isFinite. intros e He.
    destruct (wellFormed_x e (Hwf e He)) as [q ->]. reflexivity. }
  destruct (fold_minStep_minimum (map RawElement.y elements)) as [my [Hmy Hminy]].
  { destruct elements; [congruence|discriminate]. }
  { apply forallb_map_isFinite. intros e He.
    destruct (wellFormed_y e (Hwf e He)) as [q ->]. reflexivity. }
  exists mx, my. split; [exact Hminx|]. split; [exact Hminy|].
  unfold calculateElementsPositions.
  rewrite fold_minPointStep, Hmx, Hmy.
  apply map_ext_in. intros e He. apply normalize_element. now apply Hwf.
Qed.


Lemma isMinimum_zero_normalizedBatch :
  isMinimum (Fin 0) (map RawElement.x normalizedBatch) /\
  isMinimum (Fin 0) (map RawElement.y normalizedBatch).
Proof.
  split; (split; [now left|]); intros v Hv; cbn in Hv;
    repeat (destruct Hv as [<-|Hv]); try contradiction; cbn; discriminate.
Qed.



(** ** The position normalizer on doubles *)

Section NormalizerDoubleFacts.

Import PrimFloat FloatOps SpecFloat FloatAxioms Double.
Import WalkerDouble NormalizerDoubleSpec.
Local Open Scope float_scope.

Lemma fold_minPointStep_double (es : list RawElement) (ax ay : float) :
  fold_left minPointStep es (ax, ay) =
  (fold_left minStep (map x es) ax, fold_left minStep (map y es) ay).
Proof.
  revert ax ay. induction es as [|e es IH]; intros ax ay; [reflexivity|].
  cbn [fold_left map]. unfold minPointStep at 2. cbn [fst snd].
  unfold minStep at 2 4.
  destruct (x e <? ax); cbn [fst snd];
    destruct (y e <? ay); apply IH.
Qed.

(** The minimum search over finite values: the result is the seed or one of
    the values, and neither the seed nor a value is below it. *)
Lemma fold_minStep_least (vs : list float) :
  Forall (fun v => isFinite v = true) vs ->
  forall a, Prim2SF a <> S754_nan ->
  let r := fold_left minStep vs a in
  (r = a \/ In r vs) /\ (a <? r) = false /\
  forall v, In v vs -> (v <? r) = false.
Proof.
  induction 1 as [|v vs Hv _ IH]; intros a Ha; cbn [fold_left].
  - split; [now left|]. split; [apply ltb_irrefl|intros v []].
  - assert (Hm : Prim2SF (minStep a v) <> S754_nan).
    { unfold minStep. destruct (v <? a); [now apply isFinite_not_nan|exact Ha]. }
    destruct (IH (minStep a v) Hm) as (Hin & Hseed & Hall).
    set (r := fold_left minStep vs (minStep a v)) in *.
    unfold minStep in Hin, Hseed. destruct (v <? a) eqn:Hva.
    + split; [|split].
      * destruct Hin as [->|Hin]; right; [now left|now right].
      * destruct (a <? r) eqn:Har; [|reflexivity].
        now rewrite (ltb_trans v a r Hva Har) in Hseed.
      * intros w [<-|Hw]; [exact Hseed|now apply Hall].
    + split; [|split].
      * destruct Hin as [->|Hin]; [now left|right; now right].
      * exact Hseed.
      * intros w [Hw|Hw]; [subst w|now apply Hall].
        destruct (v <? r) eqn:Hvr; [|reflexivity].
        destruct (ltb_negtrans a v r Ha Hvr) as [E|E]; congruence.
Qed.

Lemma fold_minStep_isLeast (vs : list float) :
  vs <> [] -> Forall (fun v => isFinite v = true) vs ->
  isLeast (fold_left minStep vs infinity) vs.
Proof.
  intros Hne Hfin.
  destruct (fold_minStep_least vs Hfin infinity) as (Hin & _ & Hall);
    [discriminate|].
  split; [|exact Hall].
  destruct Hin as [E|Hin]; [|exact Hin].
  destruct vs as [|v vs]; [contradiction|].
  pose proof (Hall v (or_introl eq_refl)) as Hv. rewrite E in Hv.
  inversion Hfin as [|? ? Fv _]; subst.
  now rewrite (isFinite_ltb_infinity v Fv) in Hv.
Qed.

Lemma safeNumber_zero : safeNumber 0 = 0.
Proof. reflexivity. Qed.

(** The values moved by a least one of them: zero is among the results and
    none is below zero. *)
Lemma rebase_leastIsZero (m : float) (vs : list float) :
  Forall (fun v => isFinite v = true) vs ->
  isLeast m vs ->
  leastIsZero (map (fun v => safeNumber (v - m)) vs).
Proof.
  intros Hfin [Hin Hall]. rewrite Forall_forall in Hfin.
  pose proof (Hfin m Hin) as Hm. split.
  - apply in_map_iff. exists m. split; [|exact Hin].
    now rewrite (sub_self m Hm).
  - intros w Hw. apply in_map_iff in Hw as [v [<- Hv]].
    apply sub_nonneg; [now apply Hfin|exact Hm|now apply Hall].
Qed.

Lemma wellFormed_finite (elements : list RawElement) :
  forallb wellFormed elements = true ->
  Forall (fun v => isFinite v = true) (map x elements) /\
  Forall (fun v => isFinite v = true) (map y elements).
Proof.
  intros H. rewrite forallb_forall in H.
  split; apply Forall_forall; intros v Hv;
    apply in_map_iff in Hv as [e [<- He]];
    specialize (H e He); unfold wellFormed in H;
    apply andb_prop in H as [Hx Hy]; assumption.
Qed.




End NormalizerDoubleFacts.

(** ** The attribute merge of [use] *)

Import MergeSpec.

Lemma lookupAttr_setAttr (name value k : string) (attrs : list (string * string)) :
  lookupAttr k (setAttr name value attrs) =
  if String.eqb name k then Some value else lookupAttr k attrs.
Proof.
  induction attrs as [|[n v] attrs IH]; cbn [setAttr lookupAttr].
  - reflexivity.
  - destruct (String.eqb_spec n name) as [->|Hn]; cbn [lookupAttr].
    + destruct (String.eqb_spec name k); reflexivity.
    + rewrite IH. destruct (String.eqb_spec n k) as [->|Hk]; [|reflexivity].
      destruct (String.eqb_spec name k); [congruence|reflexivity].
Qed.

Lemma getAttribute_setAttribute (el : Node) (name value k : string) :
  isElement el = true ->
  getAttribute (setAttribute el name value) k =
  if String.eqb name k then Some value else getAttribute el k.
Proof.
  destruct el; [|discriminate]. intros _. apply lookupAttr_setAttr.
Qed.

Lemma isElement_setAttribute el name value :
  isElement (setAttribute el name value) = isElement el.
Proof. destruct el; reflexivity. Qed.

Lemma getAttribute_cloneNode el k :
  getAttribute (cloneNode el) k = getAttribute el k.
Proof. destruct el; reflexivity. Qed.

Lemma getDefElWithCorrectAttrs_fold defEl useEl :
  getDefElWithCorrectAttrs defEl useEl =
  fold_left (overlayStep defEl useEl) (attributes useEl) (cloneNode defEl).
Proof. reflexivity. Qed.

Lemma overlayStep_isElement defEl useEl el attr :
  isElement (overlayStep defEl useEl el attr) = isElement el.
Proof.
  destruct attr as [n v]. unfold overlayStep.
  destruct (includes skippedUseAttrs (Some v)); [reflexivity|].
  destruct (negb (hasAttribute defEl n) || includes allwaysPassedUseAttrs (Some n));
    [apply isElement_setAttribute|reflexivity].
Qed.

Lemma lookupAttr_absent (k : string) (attrs : list (string * string)) :
  ~ In k (map fst attrs) -> lookupAttr k attrs = None.
Proof.
  induction attrs as [|[n v] attrs IH]; intros Hnotin; [reflexivity|].
  cbn [lookupAttr]. cbn [map fst] in Hnotin.
  destruct (String.eqb_spec n k) as [->|]; [exfalso; apply Hnotin; now left|].
  apply IH. intros H. apply Hnotin. now right.
Qed.

Lemma fold_overlayStep_getAttribute defEl useEl attrs el k :
  isElement el = true ->
  NoDup (map fst attrs) ->
  getAttribute (fold_left (overlayStep defEl useEl) attrs el) k =
  merged defEl useEl k (getAttribute el k) (lookupAttr k attrs).
Proof.
  revert el. induction attrs as [|[n v] attrs IH]; intros el Hel Hnd;
    [reflexivity|].
  cbn [map fst] in Hnd. inversion Hnd as [|? ? Hnotin Hnd']; subst.
  cbn [fold_left lookupAttr].
  rewrite (IH _ (eq_trans (overlayStep_isElement defEl useEl el (n, v)) Hel) Hnd').
  destruct (String.eqb_spec n k) as [->|Hnk].
  - rewrite (lookupAttr_absent k attrs Hnotin). cbn [merged]. unfold overlayStep.
    destruct (includes skippedUseAttrs (Some v)); [reflexivity|].
    destruct (negb (hasAttribute defEl k) || includes allwaysPassedUseAttrs (Some k));
      [|reflexivity].
    rewrite getAttribute_setAttribute by exact Hel. now rewrite String.eqb_refl.
  - assert (E : getAttribute (overlayStep defEl useEl el (n, v)) k =
                getAttribute el k).
    { unfold overlayStep.
      destruct (includes skippedUseAttrs (Some v)); [reflexivity|].
      destruct (negb (hasAttribute defEl n)
                || includes allwaysPassedUseAttrs (Some n)); [|reflexivity].
      rewrite getAttribute_setAttribute by exact Hel.
      destruct (String.eqb_spec n k); [contradiction|reflexivity]. }
    now rewrite E.
Qed.

(** What the merged element holds under each name.  The attribute names of a
    node are distinct.  The value of the [use] attribute decides whether it
    is skipped, not its name. *)
Lemma getDefElWithCorrectAttrs_getAttribute defEl useEl k :
  isElement defEl = true ->
  NoDup (map fst (attributes useEl)) ->
  getAttribute (getDefElWithCorrectAttrs defEl useEl) k =
  merged defEl useEl k (getAttribute defEl k) (getAttribute useEl k).
Proof.
  intros Hel Hnd. rewrite getDefElWithCorrectAttrs_fold.
  rewrite fold_overlayStep_getAttribute;
    [|destruct defEl; [reflexivity|discriminate]|exact Hnd].
  now rewrite getAttribute_cloneNode.
Qed.

(** C1.  The code at two inputs where it departs from the precedence: the
    [class] attribute, present only on the [use] node, is not adopted
    because its value is [id]; and the [id] attribute of the [use] node is
    copied onto the merged element when the definition has no [id]. *)
Theorem getDefElWithCorrectAttrs_skips_by_value :
  getAttribute circleDef "class" = None /\
  getAttribute useClassId "class" = Some "id" /\
  getAttribute (getDefElWithCorrectAttrs circleDef useClassId) "class" = None /\
  getAttribute circleNoId "id" = None /\
  getAttribute useWithId "id" = Some "u1" /\
  getAttribute (getDefElWithCorrectAttrs circleNoId useWithId) "id" = Some "u1".
Proof. repeat split. Qed.

(** ** Objects *)

Lemma field_setField (name k : string) (v : JsObject.value) (o : JsObject.t) :
  JsObject.field (JsObject.setField name v o) k =
  if String.eqb name k then Some v else JsObject.field o k.
Proof.
  induction o as [|[n w] o IH]; cbn [JsObject.setField JsObject.field].
  - reflexivity.
  - destruct (String.eqb_spec n name) as [->|Hn]; cbn [JsObject.field].
    + destruct (String.eqb_spec name k); reflexivity.
    + rewrite IH. destruct (String.eqb_spec n k) as [->|]; [|reflexivity].
      destruct (String.eqb_spec name k); [congruence|reflexivity].
Qed.

(** A spread of an object that lacks a field keeps the field as it was. *)
Lemma field_spread_absent (a b : JsObject.t) (k : string) :
  JsObject.field b k = None ->
  JsObject.field (JsObject.spread a b) k = JsObject.field a k.
Proof.
  unfold JsObject.spread. revert a.
  induction b as [|[n v] b IH]; intros a Hb; [reflexivity|].
  cbn [JsObject.field] in Hb. cbn [fold_left fst snd].
  destruct (String.eqb_spec n k) as [->|Hn]; [discriminate|].
  rewrite (IH _ Hb), field_setField.
  destruct (String.eqb_spec n k); [contradiction|reflexivity].
Qed.

(** The field written last wins. *)
Lemma field_spread_last (a b : JsObject.t) (k : string) (v : JsObject.value) :
  JsObject.field (JsObject.spread a (b ++ [(k, v)])) k = Some v.
Proof.
  unfold JsObject.spread. rewrite fold_left_app. cbn [fold_left fst snd].
  rewrite field_setField. now rewrite String.eqb_refl.
Qed.

(** ** The walkers *)

Import WalkerSpec Samples.

Lemma accepts_nodeValidator (tw : TreeWalker) (n : Node) :
  acceptNode tw = nodeValidator ->
  accepts tw n = includes SUPPORTED_TAGS (tagName n).
Proof.
  intros E. unfold accepts. rewrite E. unfold nodeValidator.
  now destruct (includes SUPPORTED_TAGS (tagName n)).
Qed.

Lemma rejected_unsupported (tw : TreeWalker) (rejected : list Node) :
  acceptNode tw = nodeValidator ->
  Forall unsupported rejected ->
  Forall (fun r => accepts tw r = false) rejected.
Proof.
  intros E H. induction H as [|r rejected Hr _ IH]; constructor; [|exact IH].
  now rewrite accepts_nodeValidator.
Qed.

Lemma pop_last (A : Type) (l : list A) (a : A) : pop (l ++ [a]) = (Some a, l).
Proof.
  unfold pop. rewrite rev_app_distr. cbn [rev app]. now rewrite rev_involutive.
Qed.

Lemma nodeName_setAttribute el name value :
  nodeName (setAttribute el name value) = nodeName el.
Proof. destruct el; reflexivity. Qed.

Lemma childNodes_setAttribute el name value :
  childNodes (setAttribute el name value) = childNodes el.
Proof. destruct el; reflexivity. Qed.

(** The merged element has the node name of the definition and no
    children. *)
Lemma getDefElWithCorrectAttrs_shape defEl useEl :
  nodeName (getDefElWithCorrectAttrs defEl useEl) = nodeName defEl /\
  childNodes (getDefElWithCorrectAttrs defEl useEl) = [].
Proof.
  rewrite getDefElWithCorrectAttrs_fold.
  assert (H : forall attrs el,
             nodeName (fold_left (overlayStep defEl useEl) attrs el) =
               nodeName el /\
             childNodes (fold_left (overlayStep defEl useEl) attrs el) =
               childNodes el).
  { induction attrs as [|[n v] attrs IH]; intros el; [now split|].
    cbn [fold_left].
    destruct (IH (overlayStep defEl useEl el (n, v))) as [-> ->].
    unfold overlayStep.
    destruct (includes skippedUseAttrs (Some v)); [now split|].
    destruct (negb (hasAttribute defEl n)
              || includes allwaysPassedUseAttrs (Some n)); [|now split].
    now rewrite nodeName_setAttribute, childNodes_setAttribute. }
  destruct (H (attributes useEl) (cloneNode defEl)) as [-> ->].
  destruct defEl; now split.
Qed.

(** A walker on a node without children has no next node. *)
Lemma nextNode_childless (node : Node) :
  childNodes node = [] ->
  nextNode (createTreeWalker node []) = (createTreeWalker node [], None).
Proof.
  intros H. unfold nextNode, childrenAt. cbn. now rewrite H.
Qed.

Lemma calculateElementsPositions_length (elements : list RawElement.t) :
  List.length (calculateElementsPositions elements) = List.length elements.
Proof.
  unfold calculateElementsPositions.
  destruct (fold_left minPointStep elements (PosInfinity, PosInfinity)).
  apply length_map.
Qed.

Section WalkerFacts.

Context {C : Collaborators}.

Lemma walkNextNode_childless (fuel : nat) (rootNode node : Node)
    (gs : list Group) (scene : Scene) :
  childNodes node = [] ->
  walkNextNode (walk (S fuel))
    {| root := rootNode; tw := createTreeWalker node []; groups := gs |} scene =
  (scene, Returned).
Proof.
  intros H. unfold walkNextNode. cbn [tw]. rewrite (nextNode_childless node H).
  reflexivity.
Qed.

(** The sub-conversion of a definition that is a circle, an ellipse, a rect
    or a polyline returns one element, given fuel for its two calls. *)
Lemma subConversion_leafShape (fuel : nat) (args : WalkerArgs) (defEl : Node) :
  leafShape (nodeName defEl) ->
  exists exEl, subConversion (walk (S (S fuel))) args defEl = ([exEl], Returned).
Proof.
  intros Hleaf. unfold subConversion.
  destruct (getDefElWithCorrectAttrs_shape defEl (current (tw args))) as [Hn Hc].
  set (finalEl := getDefElWithCorrectAttrs defEl (current (tw args))) in *.
  cbn [walk walkBody]. rewrite Hn.
  destruct Hleaf as [E|[E|[E|E]]]; rewrite E;
    cbn [walkers String.eqb Ascii.eqb Bool.eqb];
    unfold circle, ellipse, rect, polyline; cbn [tw groups root app];
    rewrite (walkNextNode_childless fuel _ finalEl _ _ Hc);
    eexists; reflexivity.
Qed.

(** The sub-conversion of a definition that is a path returns as many
    elements as the path-data parser gives sub-shapes. *)
Lemma subConversion_path (fuel : nat) (args : WalkerArgs) (defEl : Node) :
  nodeName defEl = "path" ->
  exists exPaths,
    subConversion (walk (S (S fuel))) args defEl = (exPaths, Returned) /\
    List.length exPaths =
      List.length
        (path_convert (getDefElWithCorrectAttrs defEl (current (tw args)))).
Proof.
  intros E. unfold subConversion.
  destruct (getDefElWithCorrectAttrs_shape defEl (current (tw args))) as [Hn Hc].
  set (finalEl := getDefElWithCorrectAttrs defEl (current (tw args))) in *.
  cbn [walk walkBody]. rewrite Hn, E.
  cbn [walkers String.eqb Ascii.eqb Bool.eqb].
  unfold path. cbn [tw groups root app].
  rewrite (walkNextNode_childless fuel _ finalEl _ _ Hc).
  eexists. split; [reflexivity|].
  rewrite length_map, calculateElementsPositions_length.
  unfold current. cbn. reflexivity.
Qed.

(** What [walkers] holds at a name it inherits. *)
Lemma walkers_inheritedThrowing (walk : Walk) (name : string) :
  In name inheritedThrowing -> walkers walk name = Some notCallable.
Proof.
  intros [<-|[<-|[<-|[]]]]; reflexivity.
Qed.

Lemma includes_false (l : list string) (name : string) :
  ~ In name l -> includes l (Some name) = false.
Proof.
  intros H. cbn [includes]. destruct (existsb (String.eqb name) l) eqn:E;
    [|reflexivity].
  apply existsb_exists in E as [x [Hx E]]. apply String.eqb_eq in E.
  now subst x.
Qed.

(** A node with an unsupported tag that reaches [walk], other than one
    named [__proto__], [__defineGetter__] or [__defineSetter__]: nothing is
    appended and nothing is thrown for it.  ([line] and [polygon] have a
    walker, which goes on to the next node.) *)
Lemma walk_unsupported (fuel : nat) (args : WalkerArgs) (scene : Scene)
    (node : Node) :
  unsupported node ->
  ~ In (nodeName node) inheritedThrowing ->
  walk (S fuel) args (Some node) scene = (scene, Returned) \/
  walk (S fuel) args (Some node) scene = walkNextNode (walk fuel) args scene.
Proof.
  intros Hun Hin. cbn [walk walkBody].
  destruct node as [tag attrs children|kind children].
  - unfold unsupported in Hun.
    cbn [tagName includes SUPPORTED_TAGS existsb] in Hun.
    repeat (apply orb_false_elim in Hun as [? Hun]).
    cbn [nodeName] in *. unfold walkers.
    repeat match goal with
           | H : (tag =? _) = false |- _ => rewrite H; clear H
           end.
    destruct (tag =? "line"); [right; reflexivity|].
    destruct (tag =? "polygon"); [right; reflexivity|].
    rewrite (includes_false _ _ Hin).
    destruct (includes inheritedReturning (Some tag)); left; reflexivity.
  - left. reflexivity.
Qed.

Lemma presAttrs_groupIds (el : Node) (gs : list Group) :
  JsObject.field (presAttrs el gs) "groupIds" = None.
Proof.
  unfold presAttrs.
  rewrite field_spread_absent by apply filterAttrs_style.
  rewrite field_spread_absent by apply presAttrs_style.
  apply getGroupAttrs_style.
Qed.

Lemma useExpansion_resolved (walk : Walk) (args : WalkerArgs) (scene : Scene)
    (defEl : Node) :
  resolves args defEl ->
  useExpansion walk args scene =
  match subConversion walk args defEl with
  | (tempScene, Returned) =>
      match pop tempScene with
      | (None, _) => (scene, Thrown EmptyResolution)
      | (Some exEl, _) => (scene ++ [exEl], Returned)
      end
  | (_, stopped) => (scene, stopped)
  end.
Proof.
  intros [Hid Hdef]. unfold useExpansion, subConversion.
  fold (useId args). rewrite Hid. cbn [negb]. rewrite Hdef. reflexivity.
Qed.

Lemma walk_use (fuel : nat) (args : WalkerArgs) (scene : Scene) (node : Node) :
  nodeName node = "use" ->
  walk (S fuel) args (Some node) scene =
  match useExpansion (walk fuel) args scene with
  | (scene', Returned) => walkNextNode (walk fuel) args scene'
  | stopped => stopped
  end.
Proof. intros Hn. cbn [walk walkBody]. rewrite Hn. reflexivity. Qed.

(** C6 (as amended).  For a [use] node whose reference resolves: when the
    conversion of the merged element returns, either it produced no element
    and the empty-resolution error is thrown, or one of its elements, and
    only that one, is appended to the caller's scene, where the traversal
    goes on; when that conversion does not return, because it throws or
    because it has no end, the expansion ends the same way; whatever the
    outcome, the expansion leaves the caller's scene longer by exactly one
    element when it returns and as it was otherwise; and when the definition
    is a circle, an ellipse, a rect or a polyline, the expansion returns. *)
Theorem useExpansion_appends_exactly_one (fuel : nat) (args : WalkerArgs)
    (scene : Scene) (node defEl : Node) :
  nodeName node = "use" ->
  resolves args defEl ->
  (forall tempScene,
      subConversion (walk fuel) args defEl = (tempScene, Returned) ->
      (tempScene = [] /\
       walk (S fuel) args (Some node) scene = (scene, Thrown EmptyResolution)) \/
      (exists exEl,
          In exEl tempScene /\
          useExpansion (walk fuel) args scene = (scene ++ [exEl], Returned) /\
          walk (S fuel) args (Some node) scene =
            walkNextNode (walk fuel) args (scene ++ [exEl]))) /\
  (forall scene' c,
      useExpansion (walk fuel) args scene = (scene', c) ->
      (c = Returned /\ List.length scene' = S (List.length scene) /\
       exists exEl, scene' = scene ++ [exEl]) \/
      (c <> Returned /\ scene' = scene)) /\
  (leafShape (nodeName defEl) -> (2 <= fuel)%nat ->
   exists exEl,
     useExpansion (walk fuel) args scene = (scene ++ [exEl], Returned)) /\
  (forall tempScene c,
      subConversion (walk fuel) args defEl = (tempScene, c) ->
      c <> Returned ->
      useExpansion (walk fuel) args scene = (scene, c) /\
      walk (S fuel) args (Some node) scene = (scene, c)).
Proof.
  intros Hn Hres. rewrite (walk_use fuel args scene node Hn).
  rewrite (useExpansion_resolved (walk fuel) args scene defEl Hres).
  split; [|split; [|split]].
  - intros tempScene Hsub. rewrite Hsub.
    destruct tempScene as [|e l] using rev_ind.
    + left. split; reflexivity.
    + right. rewrite pop_last. exists e. split; [|split; reflexivity].
      apply in_or_app. right. now left.
  - intros scene' c.
    destruct (subConversion (walk fuel) args defEl) as [tempScene [| e |]].
    + destruct tempScene as [|e l] using rev_ind.
      * intros [= <- <-]. right. split; [discriminate|reflexivity].
      * rewrite pop_last. intros [= <- <-]. left. split; [reflexivity|].
        split; [rewrite length_app; cbn; lia|now exists e].
    + intros [= <- <-]. right. split; [discriminate|reflexivity].
    + intros [= <- <-]. right. split; [discriminate|reflexivity].
  - intros Hleaf Hfuel.
    destruct fuel as [|[|fuel]]; [lia|lia|].
    destruct (subConversion_leafShape fuel args defEl Hleaf) as [exEl Hsub].
    rewrite Hsub. exists exEl. reflexivity.
  - intros tempScene c Hsub Hc. rewrite Hsub.
    destruct c; [contradiction|split; reflexivity|split; reflexivity].
Qed.

(** C10.  For a [use] node whose reference resolves and whose sub-conversion
    returns the elements [earlier] followed by [last]: only [last] is
    appended to the caller's scene, the expansion returns without an error,
    and the traversal goes on.  This is what happens when the definition is
    a path that the path-data parser turns into two or more sub-shapes. *)
Theorem useExpansion_keeps_last (fuel : nat) (args : WalkerArgs) (scene : Scene)
    (node defEl : Node) :
  nodeName node = "use" ->
  resolves args defEl ->
  (forall (earlier : list JsObject.t) (last : JsObject.t),
      subConversion (walk fuel) args defEl = (earlier ++ [last], Returned) ->
      useExpansion (walk fuel) args scene = (scene ++ [last], Returned) /\
      walk (S fuel) args (Some node) scene =
        walkNextNode (walk fuel) args (scene ++ [last])) /\
  (nodeName defEl = "path" ->
   (2 <= fuel)%nat ->
   (2 <= List.length
           (path_convert (getDefElWithCorrectAttrs defEl (current (tw args)))))%nat ->
   exists earlier last,
     earlier <> [] /\
     subConversion (walk fuel) args defEl = (earlier ++ [last], Returned) /\
     useExpansion (walk fuel) args scene = (scene ++ [last], Returned)).
Proof.
  intros Hn Hres.
  assert (Hkeep : forall earlier last,
             subConversion (walk fuel) args defEl = (earlier ++ [last], Returned) ->
             useExpansion (walk fuel) args scene = (scene ++ [last], Returned)).
  { intros earlier last Hsub.
    now rewrite (useExpansion_resolved (walk fuel) args scene defEl Hres),
      Hsub, pop_last. }
  split.
  - intros earlier last Hsub. split; [now apply (Hkeep earlier)|].
    now rewrite (walk_use fuel args scene node Hn), (Hkeep earlier last Hsub).
  - intros Hpath Hfuel Hlen.
    destruct fuel as [|[|fuel]]; [lia|lia|].
    destruct (subConversion_path fuel args defEl Hpath) as [exPaths [Hsub Hl]].
    rewrite <- Hl in Hlen.
    destruct exPaths as [|e l] using rev_ind; [cbn in Hlen; lia|].
    exists l, e. split.
    + intros ->. cbn in Hlen. lia.
    + split; [exact Hsub|now apply (Hkeep l)].
Qed.

(** C7 (as amended).  A [use] node that has neither [href] nor
    [xlink:href], or whose reference matches no element of the document,
    makes [walk] throw the reference error; the scene is then what it was
    when the node was reached: what was appended before stays, and nothing
    is appended after.  The error passes through an enclosing group and an
    enclosing [use] expansion, which drops its own sub-scene. *)
Theorem use_reference_not_found :
  (forall (fuel : nat) (args : WalkerArgs) (scene : Scene) (node : Node),
      nodeName node = "use" ->
      (getAttribute (current (tw args)) "href" = None /\
       getAttribute (current (tw args)) "xlink:href" = None) \/
      (truthy (useId args) = true /\
       querySelector (root args) (orEmpty (useId args)) = None) ->
      exists e,
        walk (S fuel) args (Some node) scene = (scene, Thrown e) /\
        (e = ReferenceNotFound_noId \/
         e = ReferenceNotFound_noDef (orEmpty (useId args)))) /\
  (forall (walk : Walk) (args : WalkerArgs) (scene scene' : Scene) (e : exn),
      walkNextNode walk
        {| root := root args;
           tw := createTreeWalker (top (tw args)) (currentNode (tw args));
           groups := groups args ++ [Group_new (current (tw args))] |} scene =
        (scene', Thrown e) ->
      g walk args scene = (scene', Thrown e)) /\
  (forall (walk : Walk) (args : WalkerArgs) (scene tempScene : Scene)
          (defEl : Node) (e : exn),
      resolves args defEl ->
      subConversion walk args defEl = (tempScene, Thrown e) ->
      use walk args scene = (scene, Thrown e)).
Proof.
  split; [|split].
  - intros fuel args scene node Hn H. rewrite (walk_use fuel args scene node Hn).
    unfold useExpansion. fold (useId args).
    destruct H as [[Hh Hx]|[Hid Hq]].
    + assert (E : truthy (useId args) = false)
        by (unfold useId, orElse; rewrite Hh, Hx; reflexivity).
      rewrite E. cbn [negb]. exists ReferenceNotFound_noId.
      split; [reflexivity|now left].
    + rewrite Hid. cbn [negb]. rewrite Hq.
      eexists. split; [reflexivity|now right].
  - intros walk args scene scene' e H. unfold g. now rewrite H.
  - intros walk args scene tempScene defEl e Hres Hsub. unfold use.
    now rewrite (useExpansion_resolved walk args scene defEl Hres), Hsub.
Qed.

(** What each leaf walker writes to [groupIds]. *)

Lemma rect_pushes (walk : Walk) (args : WalkerArgs) (scene : Scene) :
  exists el,
    rect walk args scene = walkNextNode walk args (scene ++ [el]) /\
    JsObject.field el "groupIds" = Some (JsObject.VStrings []).
Proof.
  eexists. split; [reflexivity|].
  rewrite field_spread_absent by reflexivity.
  rewrite field_spread_absent by apply presAttrs_groupIds.
  apply createExRect_groupIds.
Qed.

Lemma polyline_pushes (walk : Walk) (args : WalkerArgs) (scene : Scene) :
  exists el,
    polyline walk args scene = walkNextNode walk args (scene ++ [el]) /\
    JsObject.field el "groupIds" = Some (JsObject.VStrings []).
Proof.
  eexists. split; [reflexivity|].
  rewrite field_spread_absent by apply getGroupAttrs_style.
  apply createExLine_groupIds.
Qed.

Lemma circle_pushes (walk : Walk) (args : WalkerArgs) (scene : Scene) :
  exists el,
    circle walk args scene = walkNextNode walk args (scene ++ [el]) /\
    JsObject.field el "groupIds" =
      Some (JsObject.VStrings (map Group_id (groups args))).
Proof.
  eexists. split; [reflexivity|].
  apply field_spread_last.
Qed.

Lemma ellipse_pushes (walk : Walk) (args : WalkerArgs) (scene : Scene) :
  exists el,
    ellipse walk args scene = walkNextNode walk args (scene ++ [el]) /\
    JsObject.field el "groupIds" =
      Some (JsObject.VStrings (map Group_id (groups args))).
Proof.
  eexists. split; [reflexivity|].
  apply field_spread_last.
Qed.

(** Group scoping: the subtree of a [g] node is walked with the stack plus
    one new group, and the traversal resumes at the sibling with the stack
    as it was. *)
Lemma g_scopes (walk : Walk) (args : WalkerArgs) (scene : Scene) :
  g walk args scene =
  match
    walkNextNode walk
      {| root := root args;
         tw := createTreeWalker (top (tw args)) (currentNode (tw args));
         groups := groups args ++ [Group_new (current (tw args))] |} scene
  with
  | (scene', Returned) =>
      walk (withTw args (fst (nextSibling (tw args))))
           (snd (nextSibling (tw args))) scene'
  | stopped => stopped
  end /\
  groups (withTw args (fst (nextSibling (tw args)))) = groups args.
Proof.
  split; [|reflexivity]. unfold g.
  destruct (walkNextNode walk _ scene) as [scene' [| |]]; try reflexivity.
  now destruct (nextSibling (tw args)).
Qed.

End WalkerFacts.

(** C8.  The code on a [rect]: whatever the group stack, the element that
    [rect] appends has the factory's empty [groupIds]; in the document
    [<g id=A><g id=B><rect/><circle/></g></g>] the rect gets no group id and
    the circle next to it gets A and B. *)
Theorem rect_groupIds_ignore_groups :
  (forall (C : Collaborators) (walk : Walk) (args : WalkerArgs) (scene : Scene),
      exists el,
        rect walk args scene = walkNextNode walk args (scene ++ [el]) /\
        JsObject.field el "groupIds" = Some (JsObject.VStrings [])) /\
  snd (Fixture.convert 10 nestedGroups) = Returned /\
  map (fun el => (JsObject.field el "type", JsObject.field el "groupIds"))
      (fst (Fixture.convert 10 nestedGroups)) =
  [ (Some (JsObject.VString "rectangle"), Some (JsObject.VStrings []));
    (Some (JsObject.VString "ellipse"), Some (JsObject.VStrings ["A"; "B"])) ].
Proof.
  split; [intros; apply rect_pushes|]. split; vm_compute; reflexivity.
Qed.



(** The [use] of [<rect id=r1/><use href=#r1/>] appends one rectangle. *)
Lemma useExpansion_appends_exactly_one_witness :
  exists exEl,
    useExpansion (walk 3) (argsAt rectThenUse [1; 0]%nat) [] =
      ([] ++ [exEl], Returned) /\
    JsObject.field exEl "type" = Some (JsObject.VString "rectangle").
Proof.
  destruct (proj1 (useExpansion_appends_exactly_one 3
                     (argsAt rectThenUse [1; 0]%nat) []
                     (Element "use" [("href", "#r1")] [])
                     (Element "rect" [("id", "r1")] [])
                     eq_refl (conj eq_refl eq_refl))
                  (fst (subConversion (walk 3) (argsAt rectThenUse [1; 0]%nat)
                          (Element "rect" [("id", "r1")] [])))
                  eq_refl)
    as [[Hempty _]|[exEl [Hin [Hexp _]]]].
  - vm_compute in Hempty. discriminate Hempty.
  - exists exEl. split; [exact Hexp|].
    vm_compute in Hin. destruct Hin as [<-|[]]. reflexivity.
Defined.

(** The path of [<defs><path id=p/></defs><use xlink:href=#p/>] converts to
    two sub-shapes; the [use] appends one element. *)
Lemma useExpansion_keeps_last_witness :
  List.length (fst (subConversion (walk 3) (argsAt pathThenUse [1; 0]%nat)
                      (Element "path" [("id", "p")] []))) = 2%nat /\
  exists earlier last,
    earlier <> [] /\
    subConversion (walk 3) (argsAt pathThenUse [1; 0]%nat)
      (Element "path" [("id", "p")] []) = (earlier ++ [last], Returned) /\
    useExpansion (walk 3) (argsAt pathThenUse [1; 0]%nat) [] =
      ([] ++ [last], Returned).
Proof.
  split; [vm_compute; reflexivity|].
  apply (proj2 (useExpansion_keeps_last 3 (argsAt pathThenUse [1; 0]%nat) []
                  (Element "use" [("xlink:href", "#p")] [])
                  (Element "path" [("id", "p")] [])
                  eq_refl (conj eq_refl eq_refl))).
  - reflexivity.
  - lia.
  - cbn. lia.
Defined.

(** The [use] of [<rect/><use href=#missing/><circle/>]. *)
Lemma use_reference_not_found_witness :
  walk 1 (argsAt rectThenBrokenUse [1; 0]%nat)
       (Some (Element "use" [("href", "#missing")] [])) [] =
  ([], Thrown (ReferenceNotFound_noDef "#missing")).
Proof.
  destruct (proj1 use_reference_not_found 0%nat
              (argsAt rectThenBrokenUse [1; 0]%nat) []
              (Element "use" [("href", "#missing")] []) eq_refl
              (or_intror (conj eq_refl eq_refl))) as [e [H [E|E]]].
  - exfalso. rewrite E in H. vm_compute in H. discriminate H.
  - rewrite H, E. reflexivity.
Defined.

(** C7 as stated fails: the conversion of
    [<rect/><use href=#missing/><circle/>], started on an empty scene, throws
    the reference error and leaves the rectangle in the scene. *)
Lemma partial_scene_after_missing_reference :
  snd (Fixture.convert 10 rectThenBrokenUse) =
    Thrown (ReferenceNotFound_noDef "#missing") /\
  map (fun el => JsObject.field el "type")
      (fst (Fixture.convert 10 rectThenBrokenUse)) =
    [Some (JsObject.VString "rectangle")] /\
  fst (Fixture.convert 10 rectThenBrokenUse) <> [].
Proof.
  split; [vm_compute; reflexivity|]. split; [vm_compute; reflexivity|].
  intros H. apply (f_equal (@List.length _)) in H. vm_compute in H.
  discriminate H.
Qed.

(** * Further properties of the code *)

Import TraversalSpec UseSamples.

(** ** The merge of a definition and a [use] node, attribute by attribute *)

Lemma getAttribute_setAttribute_other (el : Node) (name value k : string) :
  name <> k -> getAttribute (setAttribute el name value) k = getAttribute el k.
Proof.
  intros Hne. destruct el as [tag attrs children|kind children]; [|reflexivity].
  unfold getAttribute. cbn [setAttribute attributes].
  rewrite lookupAttr_setAttr.
  destruct (String.eqb_spec name k); [contradiction|reflexivity].
Qed.

Lemma fold_overlayStep_keeps (defEl useEl : Node) (k : string) :
  hasAttribute defEl k = true ->
  includes allwaysPassedUseAttrs (Some k) = false ->
  forall attrs el,
    getAttribute (fold_left (overlayStep defEl useEl) attrs el) k =
    getAttribute el k.
Proof.
  intros Hhas Hov. induction attrs as [|[n v] attrs IH]; intros el; [reflexivity|].
  cbn [fold_left]. rewrite IH. unfold overlayStep.
  destruct (includes skippedUseAttrs (Some v)); [reflexivity|].
  destruct (negb (hasAttribute defEl n) || includes allwaysPassedUseAttrs (Some n))
    eqn:E; [|reflexivity].
  apply getAttribute_setAttribute_other. intros ->.
  rewrite Hhas, Hov in E. discriminate.
Qed.

Lemma merged_use_value (defEl useEl : Node) (k v : string) :
  isElement defEl = true ->
  NoDup (map fst (attributes useEl)) ->
  getAttribute useEl k = Some v ->
  v <> "id" ->
  hasAttribute defEl k = false \/ includes allwaysPassedUseAttrs (Some k) = true ->
  getAttribute (getDefElWithCorrectAttrs defEl useEl) k = Some v.
Proof.
  intros Hel Hnd Hv Hid Hcond.
  rewrite (getDefElWithCorrectAttrs_getAttribute defEl useEl k Hel Hnd), Hv.
  assert (Hskip : includes skippedUseAttrs (Some v) = false).
  { cbn. destruct (String.eqb_spec v "id"); [contradiction|reflexivity]. }
  cbn [merged]. rewrite Hskip, Hv.
  destruct Hcond as [-> | ->]; cbn [negb orb orEmpty]; [reflexivity|].
  now rewrite orb_true_r.
Qed.

Lemma setAttr_names (name value : string) (attrs : list (string * string)) :
  map fst (setAttr name value attrs) =
  if existsb (String.eqb name) (map fst attrs) then map fst attrs
  else map fst attrs ++ [name].
Proof.
  induction attrs as [|[n v] attrs IH]; cbn [setAttr map fst existsb app];
    [reflexivity|].
  destruct (String.eqb_spec n name) as [->|Hn].
  - rewrite String.eqb_refl. reflexivity.
  - cbn [map fst]. rewrite IH.
    destruct (String.eqb_spec name n); [congruence|]. cbn [orb].
    now destruct (existsb (String.eqb name) (map fst attrs)).
Qed.

Lemma setAttr_NoDup (name value : string) (attrs : list (string * string)) :
  NoDup (map fst attrs) -> NoDup (map fst (setAttr name value attrs)).
Proof.
  intros H. rewrite setAttr_names.
  destruct (existsb (String.eqb name) (map fst attrs)) eqn:E; [exact H|].
  apply NoDup_app; [exact H|repeat constructor; intros []|].
  intros a Ha Hb. destruct Hb as [Hb|[]]. subst a.
  assert (existsb (String.eqb name) (map fst attrs) = true).
  { apply existsb_exists. exists name. split; [exact Ha|apply String.eqb_refl]. }
  congruence.
Qed.

(** The merged element has distinct attribute names when the definition
    has. *)
Lemma getDefElWithCorrectAttrs_NoDup (defEl useEl : Node) :
  NoDup (map fst (attributes defEl)) ->
  NoDup (map fst (attributes (getDefElWithCorrectAttrs defEl useEl))).
Proof.
  intros H. rewrite getDefElWithCorrectAttrs_fold.
  assert (G : forall attrs el, NoDup (map fst (attributes el)) ->
            NoDup (map fst (attributes
                     (fold_left (overlayStep defEl useEl) attrs el)))).
  { induction attrs as [|[n v] attrs IH]; intros el Hel; [exact Hel|].
    cbn [fold_left]. apply IH. unfold overlayStep.
    destruct (includes skippedUseAttrs (Some v)); [exact Hel|].
    destruct (negb (hasAttribute defEl n)
              || includes allwaysPassedUseAttrs (Some n)); [|exact Hel].
    destruct el; [|exact Hel]. cbn [setAttribute attributes] in *.
    now apply setAttr_NoDup. }
  apply G. now destruct defEl.
Qed.

(** X6.  The merged element is a shallow copy: it has the node name of the
    definition and no children, whatever the definition contains and
    whatever the [use] node holds. *)
Theorem getDefElWithCorrectAttrs_is_shallow (defEl useEl : Node) :
  nodeName (getDefElWithCorrectAttrs defEl useEl) = nodeName defEl /\
  childNodes (getDefElWithCorrectAttrs defEl useEl) = [].
Proof. apply getDefElWithCorrectAttrs_shape. Qed.

(** X7.  An attribute that the definition has, under a name outside the
    override set, keeps the definition's value on the merged element,
    whatever the [use] node holds (also with repeated attribute names). *)
Theorem getDefElWithCorrectAttrs_keeps_definition (defEl useEl : Node)
    (k : string) :
  hasAttribute defEl k = true ->
  includes allwaysPassedUseAttrs (Some k) = false ->
  getAttribute (getDefElWithCorrectAttrs defEl useEl) k = getAttribute defEl k.
Proof.
  intros Hhas Hov. rewrite getDefElWithCorrectAttrs_fold.
  rewrite (fold_overlayStep_keeps defEl useEl k Hhas Hov).
  apply getAttribute_cloneNode.
Qed.

(** The [fill] of the definition stays, against the [fill] of the [use]
    node. *)
Lemma getDefElWithCorrectAttrs_keeps_definition_witness :
  getAttribute
    (getDefElWithCorrectAttrs
       (Element "circle" [("id", "dot"); ("fill", "red")] [])
       (Element "use" [("href", "#dot"); ("fill", "blue")] []))
    "fill" = Some "red".
Proof.
  apply (getDefElWithCorrectAttrs_keeps_definition
           (Element "circle" [("id", "dot"); ("fill", "red")] [])
           (Element "use" [("href", "#dot"); ("fill", "blue")] []) "fill").
  - reflexivity.
  - reflexivity.
Defined.

(** X8.  A value of the [use] node other than the string [id], under a name
    that the definition lacks or that is in the override set, is the value
    of the merged element under that name. *)
Theorem getDefElWithCorrectAttrs_adopts_use (defEl useEl : Node)
    (k v : string) :
  isElement defEl = true ->
  NoDup (map fst (attributes useEl)) ->
  getAttribute useEl k = Some v ->
  v <> "id" ->
  hasAttribute defEl k = false \/ includes allwaysPassedUseAttrs (Some k) = true ->
  getAttribute (getDefElWithCorrectAttrs defEl useEl) k = Some v.
Proof. apply merged_use_value. Qed.

(** The [x] of the [use] node replaces the [x] of the definition. *)
Lemma getDefElWithCorrectAttrs_adopts_use_witness :
  getAttribute
    (getDefElWithCorrectAttrs
       (Element "rect" [("id", "r"); ("x", "1")] [])
       (Element "use" [("href", "#r"); ("x", "5")] []))
    "x" = Some "5".
Proof.
  apply (getDefElWithCorrectAttrs_adopts_use
           (Element "rect" [("id", "r"); ("x", "1")] [])
           (Element "use" [("href", "#r"); ("x", "5")] []) "x" "5").
  - reflexivity.
  - repeat constructor; cbn; intuition discriminate.
  - reflexivity.
  - discriminate.
  - right. reflexivity.
Defined.

(** X9.  An attribute of the [use] node whose value is the string [id] is
    never applied, whatever its name, the override set included: the merged
    element holds under that name what the definition holds. *)
Theorem getDefElWithCorrectAttrs_skips_value_id (defEl useEl : Node)
    (k : string) :
  isElement defEl = true ->
  NoDup (map fst (attributes useEl)) ->
  getAttribute useEl k = Some "id" ->
  getAttribute (getDefElWithCorrectAttrs defEl useEl) k = getAttribute defEl k.
Proof.
  intros Hel Hnd Hv.
  rewrite (getDefElWithCorrectAttrs_getAttribute defEl useEl k Hel Hnd), Hv.
  reflexivity.
Qed.

(** A [use] node with [width = id]: the width of the definition stays,
    although [width] is in the override set. *)
Lemma getDefElWithCorrectAttrs_skips_value_id_witness :
  getAttribute
    (getDefElWithCorrectAttrs
       (Element "rect" [("id", "r"); ("width", "3")] [])
       (Element "use" [("href", "#r"); ("width", "id")] []))
    "width" = Some "3".
Proof.
  apply (getDefElWithCorrectAttrs_skips_value_id
           (Element "rect" [("id", "r"); ("width", "3")] [])
           (Element "use" [("href", "#r"); ("width", "id")] []) "width").
  - reflexivity.
  - repeat constructor; cbn; intuition discriminate.
  - reflexivity.
Defined.

(** ** The steps of the tree walker after a last child *)

Lemma scanSiblings_rejected (tw : TreeWalker) (siblings : list Node) (j : nat) :
  Forall (fun s => accepts tw s = false) siblings ->
  scanSiblings tw siblings j = None.
Proof.
  intros H. revert j. induction H as [|s siblings Hs _ IH]; intros j;
    cbn [scanSiblings]; [reflexivity|].
  rewrite Hs. apply IH.
Qed.

(** [nextSibling] returns [null] and leaves the cursor where it is when no
    later sibling is accepted and the parent is. *)
Lemma nextSibling_last (tw : TreeWalker) (i : nat) (parent : Dom.path)
    (p : Node) :
  currentNode tw = i :: parent ->
  nodeAt (top tw) parent = Some p ->
  accepts tw p = true ->
  Forall (fun s => accepts tw s = false) (skipn (S i) (childNodes p)) ->
  nextSibling tw = (tw, None).
Proof.
  intros Hcur Hp Hacc Hrest. unfold nextSibling.
  destruct (path_eqb (currentNode tw) (Dom.root tw)); [reflexivity|].
  rewrite Hcur. cbn [traverseSiblings]. unfold childrenAt. rewrite Hp.
  rewrite (scanSiblings_rejected tw _ _ Hrest).
  destruct (path_eqb parent (Dom.root tw)); [reflexivity|].
  now rewrite Hacc.
Qed.

Lemma nextSibling_at_root (node : Node) :
  nextSibling (createTreeWalker node []) = (createTreeWalker node [], None).
Proof. reflexivity. Qed.

(** ** The walkers, one call at a time *)

Section TraversalFacts.

Context {C : Collaborators}.

Lemma framed_walkNextNode (w : Walk) :
  framed w ->
  forall args scene,
    walkNextNode w args scene =
    (scene ++ fst (walkNextNode w args []), snd (walkNextNode w args [])).
Proof.
  intros Hw args scene. unfold walkNextNode.
  destruct (nextNode (tw args)) as [tw' next]. apply Hw.
Qed.

Lemma framed_push (w : Walk) (args : WalkerArgs) (scene new : Scene) :
  framed w ->
  walkNextNode w args (scene ++ new) =
  (scene ++ fst (walkNextNode w args ([] ++ new)),
   snd (walkNextNode w args ([] ++ new))).
Proof.
  intros Hw. rewrite (framed_walkNextNode w Hw args (scene ++ new)).
  rewrite (framed_walkNextNode w Hw args ([] ++ new)). cbn [fst snd app].
  now rewrite app_assoc.
Qed.

Lemma framed_useExpansion (w : Walk) (args : WalkerArgs) (scene : Scene) :
  useExpansion w args scene =
  (scene ++ fst (useExpansion w args []), snd (useExpansion w args [])).
Proof.
  unfold useExpansion.
  destruct (negb (truthy _)); [now rewrite app_nil_r|].
  destruct (querySelector _ _) as [defEl|]; [|now rewrite app_nil_r].
  destruct (w _ _ []) as [tempScene [| e |]]; try now rewrite app_nil_r.
  destruct (pop tempScene) as [[exEl|] rest];
    [reflexivity|now rewrite app_nil_r].
Qed.

Lemma framed_walkBody (w : Walk) : framed w -> framed (walkBody w).
Proof.
  intros Hw args node scene. unfold walkBody.
  destruct node as [node|]; [|now rewrite app_nil_r].
  unfold walkers.
  repeat match goal with
         | |- context [if ?b then _ else _] => destruct b
         end; try (cbn [fst snd]; now rewrite app_nil_r).
  - apply (framed_walkNextNode w Hw).
  - unfold g.
    set (nextArgs := {| root := root args; tw := _; groups := _ |}).
    rewrite (framed_walkNextNode w Hw nextArgs scene).
    destruct (walkNextNode w nextArgs []) as [a [| e |]]; cbn [fst snd];
      try reflexivity.
    destruct (nextSibling (tw args)) as [tw' next].
    rewrite (Hw _ next (scene ++ a)), (Hw _ next ([] ++ a)). cbn [fst snd app].
    now rewrite app_assoc.
  - unfold use. rewrite (framed_useExpansion w args scene).
    destruct (useExpansion w args []) as [a [| e |]]; cbn [fst snd];
      try reflexivity.
    apply (framed_push w args scene a Hw).
  - unfold circle. apply framed_push, Hw.
  - unfold ellipse. apply framed_push, Hw.
  - apply (framed_walkNextNode w Hw).
  - apply (framed_walkNextNode w Hw).
  - unfold polyline. apply framed_push, Hw.
  - unfold rect. apply framed_push, Hw.
  - unfold path. apply framed_push, Hw.
Qed.

(** X10.  [walk] only appends: the scene it is handed is a prefix of the
    scene it leaves, also when it throws, and neither what it appends nor
    how it ends depends on what the scene already holds. *)
Theorem walk_appends_independently (fuel : nat) (args : WalkerArgs)
    (node : option Node) (scene : Scene) :
  walk fuel args node scene =
  (scene ++ fst (walk fuel args node []), snd (walk fuel args node [])).
Proof.
  revert args node scene. induction fuel as [|fuel IH]; intros args node scene.
  - cbn. now rewrite app_nil_r.
  - cbn [walk]. apply framed_walkBody. exact IH.
Qed.

Lemma producesNothing_names (name : string) :
  producesNothing name ->
  name <> "use" /\ name <> "circle" /\ name <> "ellipse" /\
  name <> "polyline" /\ name <> "rect" /\ name <> "path".
Proof.
  intros [H _]. unfold producingTags in H. cbn [In] in H.
  repeat split; intros ->; apply H; tauto.
Qed.

Lemma producesNothing_callable (name : string) :
  producesNothing name -> ~ In name inheritedThrowing.
Proof.
  intros [_ H] Hin. apply H. unfold inheritedKeys.
  destruct Hin as [<-|[<-|[<-|[]]]]; cbn; tauto.
Qed.

(** The sub-conversion of a definition whose name appends nothing leaves
    the sub-scene empty: the merged element has no children to go to. *)
Lemma subConversion_nothing (fuel : nat) (args : WalkerArgs) (defEl : Node) :
  producesNothing (nodeName defEl) ->
  subConversion (walk (S (S fuel))) args defEl = ([], Returned).
Proof.
  intros Hnothing.
  destruct (producesNothing_names _ Hnothing)
    as (Huse & Hcircle & Hellipse & Hpolyline & Hrect & Hpath).
  unfold subConversion.
  destruct (getDefElWithCorrectAttrs_shape defEl (current (tw args))) as [Hn Hc].
  set (finalEl := getDefElWithCorrectAttrs defEl (current (tw args))) in *.
  change (walk (S (S fuel))) with (walkBody (walk (S fuel))).
  unfold walkBody. rewrite Hn. unfold walkers.
  rewrite (includes_false inheritedThrowing _ (producesNothing_callable _ Hnothing)).
  repeat match goal with
         | |- context [String.eqb ?a ?b] =>
             destruct (String.eqb_spec a b); try contradiction
         end; try reflexivity;
    try (destruct (includes inheritedReturning _); reflexivity).
  - unfold svg. apply (walkNextNode_childless fuel _ finalEl _ _ Hc).
  - unfold g. cbn [tw root groups].
    change (top (createTreeWalker finalEl [])) with finalEl.
    change (currentNode (createTreeWalker finalEl [])) with (@nil nat).
    rewrite (walkNextNode_childless fuel _ finalEl _ _ Hc).
    rewrite nextSibling_at_root. reflexivity.
  - unfold line. apply (walkNextNode_childless fuel _ finalEl _ _ Hc).
  - unfold polygon. apply (walkNextNode_childless fuel _ finalEl _ _ Hc).
Qed.

(** X11.  A [use] node whose reference resolves to a container ([g],
    [svg]), to an unimplemented shape ([line], [polygon]) or to an element
    whose name [walkers] does not answer to, by a key of its own or an
    inherited one ([symbol], [text], ...), throws the empty-resolution error
    and leaves the scene as it was: the children of the definition are not
    converted. *)
Theorem use_of_container_throws (fuel : nat) (args : WalkerArgs)
    (scene : Scene) (node defEl : Node) :
  nodeName node = "use" ->
  resolves args defEl ->
  producesNothing (nodeName defEl) ->
  (2 <= fuel)%nat ->
  walk (S fuel) args (Some node) scene = (scene, Thrown EmptyResolution).
Proof.
  intros Hn Hres Hnothing Hfuel. destruct fuel as [|[|fuel]]; [lia|lia|].
  rewrite (walk_use _ args scene node Hn).
  rewrite (useExpansion_resolved _ args scene defEl Hres).
  now rewrite (subConversion_nothing fuel args defEl Hnothing).
Qed.

(** X12.  The element that a [use] of a circle or of an ellipse appends
    lists in [groupIds] the groups around the [use] node, not those around
    the definition. *)
Theorem use_inherits_groups (fuel : nat) (args : WalkerArgs) (scene : Scene)
    (defEl : Node) :
  resolves args defEl ->
  nodeName defEl = "circle" \/ nodeName defEl = "ellipse" ->
  (2 <= fuel)%nat ->
  exists exEl,
    useExpansion (walk fuel) args scene = (scene ++ [exEl], Returned) /\
    JsObject.field exEl "groupIds" =
      Some (JsObject.VStrings (map Group_id (groups args))).
Proof.
  intros Hres Hshape Hfuel. destruct fuel as [|[|fuel]]; [lia|lia|].
  rewrite (useExpansion_resolved _ args scene defEl Hres).
  unfold subConversion.
  destruct (getDefElWithCorrectAttrs_shape defEl (current (tw args))) as [Hn Hc].
  set (finalEl := getDefElWithCorrectAttrs defEl (current (tw args))) in *.
  change (walk (S (S fuel))) with (walkBody (walk (S fuel))).
  unfold walkBody. rewrite Hn.
  destruct Hshape as [E|E]; rewrite E;
    cbn [walkers String.eqb Ascii.eqb Bool.eqb];
    unfold circle, ellipse; cbn [tw groups root app];
    rewrite (walkNextNode_childless fuel _ finalEl _ _ Hc);
    eexists; (split; [reflexivity|apply field_spread_last]).
Qed.

Lemma use_isElement (el : Node) : nodeName el = "use" -> isElement el = true.
Proof. destruct el; [reflexivity|discriminate]. Qed.

Lemma refersBy_merge (id : string) (defEl useEl : Node) :
  id <> "id" ->
  isElement defEl = true ->
  NoDup (map fst (attributes defEl)) ->
  refersBy id useEl ->
  refersBy id (getDefElWithCorrectAttrs defEl useEl).
Proof.
  intros Hid Hel Hnd (Hund & Hhref). split.
  - now apply getDefElWithCorrectAttrs_NoDup.
  - apply (merged_use_value defEl useEl "href" id Hel Hund Hhref Hid).
    right. reflexivity.
Qed.

Lemma refersBy_resolves (id : string) (args : WalkerArgs) (defEl : Node) :
  id <> "" ->
  querySelector (root args) id = Some defEl ->
  refersBy id (current (tw args)) ->
  resolves args defEl.
Proof.
  intros Hne Hq (_ & Hhref).
  assert (Ht : truthy (Some id) = true).
  { cbn. now destruct (String.eqb_spec id ""). }
  unfold resolves, useId, orElse. rewrite Hhref, Ht. now split.
Qed.

(** The expansion of a [use] node that refers to a [use] element refers to
    it again from the merged element, at every depth. *)
Lemma useExpansion_never_returns (id : string) (rootNode defEl : Node) :
  id <> "" -> id <> "id" ->
  querySelector rootNode id = Some defEl ->
  nodeName defEl = "use" ->
  NoDup (map fst (attributes defEl)) ->
  forall (fuel : nat) (args : WalkerArgs) (scene : Scene),
    root args = rootNode ->
    refersBy id (current (tw args)) ->
    useExpansion (walk fuel) args scene = (scene, OutOfFuel).
Proof.
  intros Hne Hid Hq Hname Hnd.
  pose proof (use_isElement defEl Hname) as Hel.
  induction fuel as [|fuel IH]; intros args scene Hroot Href.
  - assert (Hres : resolves args defEl).
    { subst rootNode. now apply (refersBy_resolves id). }
    now rewrite (useExpansion_resolved _ args scene defEl Hres).
  - assert (Hres : resolves args defEl).
    { subst rootNode. now apply (refersBy_resolves id). }
    rewrite (useExpansion_resolved _ args scene defEl Hres).
    unfold subConversion.
    destruct (getDefElWithCorrectAttrs_shape defEl (current (tw args)))
      as [Hn _].
    pose proof (refersBy_merge id defEl (current (tw args)) Hid Hel Hnd Href)
      as Href'.
    set (finalEl := getDefElWithCorrectAttrs defEl (current (tw args))) in *.
    rewrite (walk_use fuel _ [] finalEl (eq_trans Hn Hname)).
    rewrite IH; [reflexivity|exact Hroot|exact Href'].
Qed.

(** X13.  A [use] node whose [href], a reference other than the string
    [id], resolves to another [use] element never completes: the [href] of
    the outer node overrides that of the inner one, so the merged element
    refers to the inner element again, and the expansion recurses without
    end.  Whatever the number of calls allowed, they are used up, and the
    scene is as it was. *)
Theorem use_of_use_never_returns (fuel : nat) (args : WalkerArgs)
    (scene : Scene) (node defEl : Node) (id : string) :
  nodeName node = "use" ->
  NoDup (map fst (attributes (current (tw args)))) ->
  getAttribute (current (tw args)) "href" = Some id ->
  id <> "" -> id <> "id" ->
  querySelector (root args) id = Some defEl ->
  nodeName defEl = "use" ->
  NoDup (map fst (attributes defEl)) ->
  walk fuel args (Some node) scene = (scene, OutOfFuel).
Proof.
  intros Hn Hund Hhref Hne Hid Hq Hname Hnd.
  destruct fuel as [|fuel]; [reflexivity|].
  rewrite (walk_use fuel args scene node Hn).
  rewrite (useExpansion_never_returns id (root args) defEl Hne Hid Hq Hname Hnd
             fuel args scene eq_refl (conj Hund Hhref)).
  reflexivity.
Qed.

(** X14.  After the subtree of a group, [g] goes on with [nextSibling], not
    with [nextNode]: when no supported sibling follows the group and its
    parent is a supported node, the conversion of the group is the
    conversion of its subtree and nothing more, so the nodes that follow
    the parent in document order are not reached from here. *)
Theorem g_last_child_ends_traversal (fuel : nat) (args : WalkerArgs)
    (scene : Scene) (node parent : Node) (i : nat) (above : Dom.path) :
  nodeName node = "g" ->
  acceptNode (tw args) = nodeValidator ->
  currentNode (tw args) = i :: above ->
  nodeAt (top (tw args)) above = Some parent ->
  supported parent ->
  Forall unsupported (skipn (S i) (childNodes parent)) ->
  walk (S (S fuel)) args (Some node) scene =
  walkNextNode (walk (S fuel)) (groupArgs args) scene.
Proof.
  intros Hn Hfilter Hcur Hparent Hsup Hrest.
  change (walk (S (S fuel))) with (walkBody (walk (S fuel))).
  unfold walkBody. rewrite Hn.
  cbn [walkers String.eqb Ascii.eqb Bool.eqb].
  unfold g. fold (groupArgs args).
  rewrite (nextSibling_last (tw args) i above parent Hcur Hparent).
  - now destruct (walkNextNode (walk (S fuel)) (groupArgs args) scene)
      as [scene' [| e |]].
  - now rewrite accepts_nodeValidator.
  - now apply rejected_unsupported.
Qed.

(** X15.  A [path] node appends one element per sub-shape that the
    path-data parser returns for it, and none of these elements has a
    [groupIds] field, whatever groups enclose the node. *)
Theorem path_appends_sub_shapes (walk : Walk) (args : WalkerArgs)
    (scene : Scene) :
  exists exPaths,
    path walk args scene = walkNextNode walk args (scene ++ exPaths) /\
    List.length exPaths = List.length (path_convert (current (tw args))) /\
    Forall (fun el => JsObject.field el "groupIds" = None) exPaths.
Proof.
  eexists. split; [reflexivity|]. split.
  - now rewrite length_map, calculateElementsPositions_length.
  - apply Forall_forall. intros el Hel. apply in_map_iff in Hel as [exp [<- _]].
    rewrite field_spread_absent by apply presAttrs_groupIds.
    rewrite field_setField. reflexivity.
Qed.

End TraversalFacts.

(** The [use] of [<g id=grp><rect/></g><use href=#grp/>]. *)
Lemma use_of_container_throws_witness :
  walk 3 (argsAt groupThenUse [1; 0]%nat)
       (Some (Element "use" [("href", "#grp")] [])) [] =
  ([], Thrown EmptyResolution).
Proof.
  apply (use_of_container_throws 2 (argsAt groupThenUse [1; 0]%nat) []
           (Element "use" [("href", "#grp")] [])
           (Element "g" [("id", "grp")] [Element "rect" [] []])).
  - reflexivity.
  - split; reflexivity.
  - split; cbn; intuition discriminate.
  - lia.
Defined.

(** The [use] of [<g id=A><circle id=c/><use href=#c/></g>], inside the
    group. *)
Lemma use_inherits_groups_witness :
  exists exEl,
    useExpansion (walk 2) useInGroupArgs [] = ([] ++ [exEl], Returned) /\
    JsObject.field exEl "groupIds" = Some (JsObject.VStrings ["A"]).
Proof.
  apply (use_inherits_groups 2 useInGroupArgs []
           (Element "circle" [("id", "c")] [])).
  - split; reflexivity.
  - left. reflexivity.
  - lia.
Defined.

(** The last [use] of
    [<circle id=c/><use id=u1 href=#c/><use href=#u1/>], with room for a
    hundred calls. *)
Lemma use_of_use_never_returns_witness :
  walk 100 (argsAt useOfUse [2; 0]%nat)
       (Some (Element "use" [("href", "#u1")] [])) [] = ([], OutOfFuel).
Proof.
  apply (use_of_use_never_returns 100 (argsAt useOfUse [2; 0]%nat) []
           (Element "use" [("href", "#u1")] [])
           (Element "use" [("id", "u1"); ("href", "#c")] []) "#u1").
  - reflexivity.
  - repeat constructor; cbn; intuition discriminate.
  - reflexivity.
  - discriminate.
  - discriminate.
  - reflexivity.
  - reflexivity.
  - repeat constructor; cbn; intuition discriminate.
Defined.

(** The group of [<svg><g id=A><circle/></g><title/></svg><rect/>]: its
    conversion is that of its subtree, and the document converts to the
    circle alone, while the same document with the circle in place of the
    group converts to the circle and the rect. *)
Lemma g_last_child_ends_traversal_witness :
  walk 5 (argsAt nestedSvgGroup [0; 0; 0]%nat)
       (Some (Element "g" [("id", "A")] [Element "circle" [] []])) [] =
    walkNextNode (walk 4) (groupArgs (argsAt nestedSvgGroup [0; 0; 0]%nat)) [] /\
  map (fun el => JsObject.field el "type")
      (fst (Fixture.convert 10 nestedSvgGroup)) =
    [Some (JsObject.VString "ellipse")] /\
  map (fun el => JsObject.field el "type")
      (fst (Fixture.convert 10 nestedSvgCircle)) =
    [Some (JsObject.VString "ellipse"); Some (JsObject.VString "rectangle")].
Proof.
  split; [|split; vm_compute; reflexivity].
  apply (g_last_child_ends_traversal 3 (argsAt nestedSvgGroup [0; 0; 0]%nat) []
           (Element "g" [("id", "A")] [Element "circle" [] []])
           (Element "svg" []
              [ Element "g" [("id", "A")] [Element "circle" [] []];
                Element "title" [] [] ])
           0%nat [0; 0]%nat).
  - reflexivity.
  - reflexivity.
  - reflexivity.
  - reflexivity.
  - reflexivity.
  - repeat constructor.
Defined.

(** C6 as stated fails: the reference of each of these [use] nodes resolves,
    and its expansion neither appends an element nor throws the
    empty-resolution error.  The expansion of a [use] of a [use] has no end,
    whatever the number of calls allowed; that of a [use] of a [use] whose
    own reference matches nothing throws the reference error of the inner
    node; that of a [use] of an element named [__proto__] throws a
    TypeError. *)
Lemma useExpansion_without_element :
  (resolves (argsAt useOfUse [2; 0]%nat)
     (Element "use" [("id", "u1"); ("href", "#c")] []) /\
   forall fuel : nat,
     useExpansion (walk fuel) (argsAt useOfUse [2; 0]%nat) [] =
       ([], OutOfFuel)) /\
  (resolves (argsAt useOfDanglingUse [1; 0]%nat)
     (Element "use" [("id", "u1"); ("href", "#missing")] []) /\
   useExpansion (walk 3) (argsAt useOfDanglingUse [1; 0]%nat) [] =
     ([], Thrown (ReferenceNotFound_noDef "#missing")) /\
   Fixture.convert 10 useOfDanglingUse =
     ([], Thrown (ReferenceNotFound_noDef "#missing"))) /\
  (resolves (argsAt useOfProto [1; 0]%nat)
     (Element "__proto__" [("id", "p")] []) /\
   useExpansion (walk 3) (argsAt useOfProto [1; 0]%nat) [] =
     ([], Thrown TypeError) /\
   Fixture.convert 10 useOfProto = ([], Thrown TypeError)).
Proof.
  split; [|split].
  - split; [split; reflexivity|]. intros fuel.
    apply (useExpansion_never_returns "#u1" useOfUse
             (Element "use" [("id", "u1"); ("href", "#c")] [])).
    + discriminate.
    + discriminate.
    + reflexivity.
    + reflexivity.
    + repeat constructor; cbn; intuition discriminate.
    + reflexivity.
    + split; [repeat constructor; cbn; intuition discriminate|reflexivity].
  - split; [split; reflexivity|]. split; vm_compute; reflexivity.
  - split; [split; reflexivity|]. split; vm_compute; reflexivity.
Qed.
